(** * kqxs: lottery-result feeds to a Telegram report

    A shallow embedding of [main.go]: the text extractor
    [parseDescription], the notifier [sendToTelegram] and the job
    [runJob], with the properties of the specification that concern
    them.

    - Go strings are byte sequences; they are modelled by [string]
      (a list of 8-bit characters), so a literal written here in UTF-8
      denotes the same bytes as the Go literal.
    - A Go [map[string]T] is modelled by [gmap string T].  Go leaves the
      iteration order of [range] over a map unspecified, and it may differ
      from one loop to the next: [range_order] allows every enumeration
      of the entries.
    - The network (HTTP GET of a feed, HTTP POST of the report) is a
      parameter of the run; standard output and the outbound request are
      recorded as a trace of events. *)

From Stdlib Require Import Ascii NArith.
From stdpp Require Import gmap strings list fin_maps.

(** ** Package [strings] of the Go standard library

    Only the functions that [main.go] calls.  Patterns and separators are
    non-empty at every call site; the behaviour of Go on an empty pattern
    (insertion around every UTF-8 sequence) is not modelled, and the
    functions below return their subject unchanged there. *)
Module Strings.

Fixpoint HasPrefix (s prefix : string) {struct prefix} : bool :=
  match prefix with
  | "" => true
  | String p prefix' =>
      match s with
      | "" => false
      | String c s' => if Ascii.eqb c p then HasPrefix s' prefix' else false
      end
  end.

Fixpoint Contains (s substr : string) : bool :=
  HasPrefix s substr ||
  match s with
  | "" => false
  | String _ s' => Contains s' substr
  end.

(** Left-to-right scan for non-overlapping occurrences of [old].  After a
    match the remaining [String.length old - 1] bytes of the occurrence are
    skipped, which is what the counter [skip] is for. *)
Fixpoint replace_go (old new : string) (skip : nat) (s : string) : string :=
  match s with
  | "" => ""
  | String c s' =>
      match skip with
      | S k => replace_go old new k s'
      | O =>
          if HasPrefix (String c s') old
          then new +:+ replace_go old new (String.length old - 1) s'
          else String c (replace_go old new 0 s')
      end
  end.

Definition ReplaceAll (s old new : string) : string :=
  match old with
  | "" => s
  | _ => replace_go old new 0 s
  end.

(** [cur] is the field being accumulated. *)
Fixpoint split_go (sep : string) (skip : nat) (cur s : string) : list string :=
  match s with
  | "" => [cur]
  | String c s' =>
      match skip with
      | S k => split_go sep k cur s'
      | O =>
          if HasPrefix (String c s') sep
          then cur :: split_go sep (String.length sep - 1) "" s'
          else split_go sep 0 (cur +:+ String c "") s'
      end
  end.

Definition Split (s sep : string) : list string :=
  match sep with
  | "" => [s]
  | _ => split_go sep 0 "" s
  end.

Definition bytes (l : list N) : string :=
  String.string_of_list_ascii (ascii_of_N <$> l).

(** The UTF-8 encodings of the code points for which [unicode.IsSpace]
    holds: tab, LF, VT, FF, CR, space, U+0085, U+00A0, U+1680,
    U+2000..U+200A, U+2028, U+2029, U+202F, U+205F, U+3000. *)
Definition white_space : list string :=
  bytes <$>
    [ [9]; [10]; [11]; [12]; [13]; [32];
      [194; 133]; [194; 160];
      [225; 154; 128];
      [226; 128; 128]; [226; 128; 129]; [226; 128; 130]; [226; 128; 131];
      [226; 128; 132]; [226; 128; 133]; [226; 128; 134]; [226; 128; 135];
      [226; 128; 136]; [226; 128; 137]; [226; 128; 138];
      [226; 128; 168]; [226; 128; 169]; [226; 128; 175];
      [226; 129; 159];
      [227; 128; 128] ]%N.

(** Width in bytes of the first of [ws] that [s] starts with, [0] if
    none does. *)
Fixpoint leading_width (ws : list string) (s : string) : nat :=
  match ws with
  | [] => 0
  | w :: ws' => if HasPrefix s w then String.length w else leading_width ws' s
  end.

Fixpoint trim_go (ws : list string) (skip : nat) (s : string) : string :=
  match s with
  | "" => ""
  | String c s' =>
      match skip with
      | S k => trim_go ws k s'
      | O =>
          match leading_width ws (String c s') with
          | O => String c s'
          | S k => trim_go ws k s'
          end
      end
  end.

(** An ill-formed byte decodes to U+FFFD, which is not a space, and the
    encodings above are a prefix code and a suffix code: removing the
    leading (trailing) white-space runes is removing leading (trailing)
    encodings while there is one.  The trailing ones are removed on the
    reversed string. *)
Definition TrimSpace (s : string) : string :=
  String.rev (trim_go (String.rev <$> white_space) 0
                (String.rev (trim_go white_space 0 s))).

End Strings.

Import Strings.

(** ** The prize-text extractor *)

Definition nl : string := String (ascii_of_N 10) "".

Definition isLocation (line : string) : bool :=
  HasPrefix line "[" && Contains line "]".

Definition isPrize (line : string) : bool :=
  HasPrefix line "G.".

(** The three [strings.ReplaceAll] calls at the head of
    [parseDescription]. *)
Definition normalize (desc : string) : string :=
  let desc := ReplaceAll desc "<br>" nl in
  let desc := ReplaceAll desc "<br/>" nl in
  ReplaceAll desc "<br />" nl.

(** One iteration of the loop over [lines]; the state is the map
    [results] and the variable [currentLocation]. *)
Definition parse_line (st : gmap string (list string) * string) (line : string)
  : gmap string (list string) * string :=
  let '(results, currentLocation) := st in
  let line := TrimSpace line in
  if decide (line = "") then st
  else if HasPrefix line "[" && Contains line "]" then (results, line)
  else if HasPrefix line "G." then
    (<[currentLocation := default [] (results !! currentLocation) ++ [line]]> results,
     currentLocation)
  else st.

Definition parse_lines (st : gmap string (list string) * string)
  (lines : list string) : gmap string (list string) * string :=
  foldl parse_line st lines.

Definition desc_lines (desc : string) : list string :=
  Split (normalize desc) nl.

Definition parseDescription (desc : string) : gmap string (list string) :=
  (parse_lines (∅, "") (desc_lines desc)).1.

(** *** Reading a description line by line

    The reference against which the table is stated: what kind of line
    each element of [lines] is, and which location is in force at each
    prize line. *)
Inductive line_kind := Blank | Location | Prize | Other.

Definition classify (line : string) : line_kind :=
  let line := TrimSpace line in
  if decide (line = "") then Blank
  else if isLocation line then Location
  else if isPrize line then Prize
  else Other.

(** The prize lines of [lines] in source order, each paired with the
    location in force when it is met ([cur] at the start). *)
Fixpoint located_prizes (cur : string) (lines : list string)
  : list (string * string) :=
  match lines with
  | [] => []
  | l :: ls =>
      match classify l with
      | Location => located_prizes (TrimSpace l) ls
      | Prize => (cur, TrimSpace l) :: located_prizes cur ls
      | Blank | Other => located_prizes cur ls
      end
  end.

Definition prizes_under (k : string) (tagged : list (string * string))
  : list string :=
  (filter (λ e, e.1 = k) tagged).*2.

(** *** Break tags

    The spellings that [parseDescription] replaces, and texts that differ
    only in which of them stands at each break. *)
Definition break_tags : list string := ["<br>"; "<br/>"; "<br />"].

Inductive same_but_breaks : string → string → Prop :=
  | sbb_same s : same_but_breaks s s
  | sbb_break s t1 t2 r1 r2 :
      t1 ∈ break_tags → t2 ∈ break_tags →
      same_but_breaks r1 r2 →
      same_but_breaks (s +:+ t1 +:+ r1) (s +:+ t2 +:+ r2).

(** ** Iterating over a Go map

    [for k, v := range m] visits every entry once, in an order that the
    language leaves unspecified. *)
Definition range_order {V} (m : gmap string V) (l : list (string * V)) : Prop :=
  l ≡ₚ map_to_list m.

(** ** The feed document *)
Record item := {
  Title : string;
  Description : string;
  PubDate : string
}.

Record channel := { Items : list item }.

Record RSS := { Channel : channel }.

Definition rssURLs : gmap string string :=
  <["Miền Bắc" := "https://xosodaiphat.com/ket-qua-xo-so-mien-bac-xsmb.rss"]>
  (<["Miền Trung" := "https://xosodaiphat.com/ket-qua-xo-so-mien-trung-xsmt.rss"]>
  (<["Miền Nam" := "https://xosodaiphat.com/ket-qua-xo-so-mien-nam-xsmn.rss"]> ∅)).

(** ** The outside world and the trace of a run *)

(** [err.Error()] *)
Definition error := string.

(** An HTTP response: its status code and what reading its body gives. *)
Record response := {
  StatusCode : Z;
  Body : string;
  ReadErr : option error
}.

Definition ReadAll (resp : response) : error + string :=
  match ReadErr resp with
  | Some err => inl err
  | None => inr (Body resp)
  end.

Inductive event :=
  | Stdout (text : string)
  | HttpGet (url : string)
  | HttpPost (url contentType body : string).

Definition is_post (e : event) : bool :=
  match e with HttpPost _ _ _ => true | _ => false end.

(** The local [finalMessage] of [runJob] and what the process has done
    so far. *)
Record job_state := {
  finalMessage : string;
  trace : list event
}.

Definition WriteString (s : string) (st : job_state) : job_state :=
  {| finalMessage := finalMessage st +:+ s; trace := trace st |}.

Definition emit (e : event) (st : job_state) : job_state :=
  {| finalMessage := finalMessage st; trace := trace st ++ [e] |}.

Definition Println (s : string) (st : job_state) : job_state :=
  emit (Stdout (s +:+ nl)) st.

Definition report_header : string :=
  "🎰 *Kết quả xổ số hôm nay*" +:+ nl +:+ nl.

Definition headline (region title : string) : string :=
  "📢 " +:+ region +:+ " - " +:+ title +:+ nl.

(** The body of [for _, p := range prizes]. *)
Definition render_prize (st : job_state) (p : string) : job_state :=
  WriteString (p +:+ nl) (Println p st).

(** The body of [for loc, prizes := range prizesByLocation]. *)
Definition render_location (st : job_state) (e : string * list string)
  : job_state :=
  let '(loc, prizes) := e in
  let st := if decide (loc ≠ "")
            then WriteString (loc +:+ nl) (Println loc st) else st in
  let st := foldl render_prize st prizes in
  WriteString nl (Println "" st).

(** What one location group adds to the message. *)
Definition group_text (e : string * list string) : string :=
  (if decide (e.1 ≠ "") then e.1 +:+ nl else "") +:+
  foldr (λ p acc, p +:+ nl +:+ acc) nl e.2.

Definition cat (l : list string) : string := foldr String.app "" l.

(** Process configuration (set by [init]) and the network, as one run
    meets them. *)
Record world := {
  telegramBotToken : string;
  telegramChatID : string;
  http_Get : string → error + response;
  http_Post : string → string → string → error + response;
  xml_Unmarshal : string → error + RSS
}.

Section Run.

Variable w : world.

Definition fetchRSS (url : string) : error + RSS :=
  match http_Get w url with
  | inl err => inl err
  | inr resp =>
      match ReadAll resp with
      | inl err => inl err
      | inr data =>
          match xml_Unmarshal w data with
          | inl err => inl err
          | inr rss => inr rss
          end
      end
  end.

Definition telegram_url : string :=
  "https://api.telegram.org/bot" +:+ telegramBotToken w +:+ "/sendMessage".

Definition telegram_payload (message : string) : string :=
  "chat_id=" +:+ telegramChatID w +:+ "&text=" +:+ message.

Definition form_type : string := "application/x-www-form-urlencoded".

(** The request that is made, and the returned error ([None] is [nil]). *)
Definition sendToTelegram (message : string) : event * option error :=
  let url := telegram_url in
  let payload := telegram_payload message in
  match http_Post w url form_type payload with
  | inl err => (HttpPost url form_type payload, Some err)
  | inr resp => (HttpPost url form_type payload, None)
  end.

(** One iteration of [for region, url := range rssURLs]. *)
Inductive visit_source : string * string → job_state → job_state → Prop :=
  | visit_fetch_error region url err st :
      fetchRSS url = inl err →
      visit_source (region, url) st
        (Println ("Error fetching: " +:+ err) (emit (HttpGet url) st))
  | visit_no_items region url rss st :
      fetchRSS url = inr rss →
      Items (Channel rss) = [] →
      visit_source (region, url) st
        (Println ("No items found for " +:+ region) (emit (HttpGet url) st))
  | visit_first_item region url rss it rest locs st :
      fetchRSS url = inr rss →
      Items (Channel rss) = it :: rest →
      range_order (parseDescription (Description it)) locs →
      visit_source (region, url) st
        (foldl render_location
           (WriteString (headline region (Title it))
              (emit (Stdout ("=== " +:+ region +:+ " | " +:+ Title it +:+ " ===" +:+ nl))
                 (emit (HttpGet url) st)))
           locs).

Inductive visit_all : list (string * string) → job_state → job_state → Prop :=
  | visit_done st : visit_all [] st st
  | visit_next src srcs st st' st'' :
      visit_source src st st' →
      visit_all srcs st' st'' →
      visit_all (src :: srcs) st st''.

(** The report-building part of [runJob], over the configured sources
    [sources] ([rssURLs] in the program). *)
Definition build_report (sources : gmap string string) (st : job_state) : Prop :=
  ∃ order,
    range_order sources order ∧
    visit_all order (WriteString report_header {| finalMessage := ""; trace := [] |}) st.


Definition report_sent (r : option error) : event :=
  match r with
  | Some err => Stdout ("Telegram error: " +:+ err +:+ nl)
  | None => Stdout ("✅ Sent to Telegram successfully" +:+ nl)
  end.

(** [runJob tr]: [tr] is what a run of [runJob] does. *)
Definition runJob (tr : list event) : Prop :=
  ∃ st,
    build_report rssURLs st ∧
    tr = trace st ++ [(sendToTelegram (finalMessage st)).1;
                      report_sent (sendToTelegram (finalMessage st)).2].

(** The source is rendered: its fetch gave at least one item. *)
Definition rendered (url : string) : bool :=
  match fetchRSS url with
  | inr rss => match Items (Channel rss) with [] => false | _ => true end
  | inl _ => false
  end.

(** What a source adds to the message, piece by piece: nothing, or its
    headline and then its location groups in the order of the
    enumeration. *)
Definition source_pieces (src : string * string) (pieces : list string) : Prop :=
  match fetchRSS src.2 with
  | inr rss =>
      match Items (Channel rss) with
      | it :: _ =>
          ∃ locs, range_order (parseDescription (Description it)) locs ∧
                  pieces = headline src.1 (Title it) :: (group_text <$> locs)
      | [] => pieces = []
      end
  | inl _ => pieces = []
  end.

End Run.

(** *** Runs under a given enumeration

    Once the order in which each map is enumerated is given, the run is a
    function: [order] is the enumeration of [rssURLs] and [pick] that of
    a prize table. *)
Definition start_state : job_state :=
  WriteString report_header {| finalMessage := ""; trace := [] |}.

Definition visit_source_with (w : world)
    (pick : gmap string (list string) → list (string * list string))
    (st : job_state) (src : string * string) : job_state :=
  let '(region, url) := src in
  match fetchRSS w url with
  | inl err => Println ("Error fetching: " +:+ err) (emit (HttpGet url) st)
  | inr rss =>
      match Items (Channel rss) with
      | [] => Println ("No items found for " +:+ region) (emit (HttpGet url) st)
      | it :: _ =>
          foldl render_location
            (WriteString (headline region (Title it))
               (emit (Stdout ("=== " +:+ region +:+ " | " +:+ Title it +:+ " ===" +:+ nl))
                  (emit (HttpGet url) st)))
            (pick (parseDescription (Description it)))
      end
  end.

Definition build_report_with (w : world)
    (pick : gmap string (list string) → list (string * list string))
    (order : list (string * string)) : job_state :=
  foldl (visit_source_with w pick) start_state order.

Definition runJob_with (w : world)
    (pick : gmap string (list string) → list (string * list string))
    (order : list (string * string)) : list event :=
  let st := build_report_with w pick order in
  trace st ++ [(sendToTelegram w (finalMessage st)).1;
               report_sent (sendToTelegram w (finalMessage st)).2].

Definition north : string * string :=
  ("Miền Bắc", "https://xosodaiphat.com/ket-qua-xo-so-mien-bac-xsmb.rss").
Definition centre : string * string :=
  ("Miền Trung", "https://xosodaiphat.com/ket-qua-xo-so-mien-trung-xsmt.rss").
Definition south : string * string :=
  ("Miền Nam", "https://xosodaiphat.com/ket-qua-xo-so-mien-nam-xsmn.rss").

Definition north_first : list (string * string) := [north; centre; south].
Definition south_first : list (string * string) := [south; centre; north].



(** ** Reading a form body

    The receiving end, by which the claim on the body of the request is
    read: the parser of [application/x-www-form-urlencoded] of the URL
    standard.  The body is cut at every [&], each non-empty piece at its
    first [=], [+] stands for a space and [%XY] for a byte. *)
Fixpoint cut_at_eq (s : string) : string * string :=
  match s with
  | "" => ("", "")
  | String c s' =>
      if Ascii.eqb c "=" then ("", s')
      else let '(name, value) := cut_at_eq s' in (String c name, value)
  end.

Definition hex_digit (c : ascii) : option N :=
  let n := N_of_ascii c in
  if (48 <=? n)%N && (n <=? 57)%N then Some (n - 48)%N
  else if (65 <=? n)%N && (n <=? 70)%N then Some (n - 55)%N
  else if (97 <=? n)%N && (n <=? 102)%N then Some (n - 87)%N
  else None.

Fixpoint percent_decode (s : string) : string :=
  match s with
  | "" => ""
  | String c s' =>
      let keep := String (if Ascii.eqb c "+" then " "%char else c) (percent_decode s') in
      if Ascii.eqb c "%" then
        match s' with
        | String h (String l rest) =>
            match hex_digit h, hex_digit l with
            | Some x, Some y => String (ascii_of_N (16 * x + y)) (percent_decode rest)
            | _, _ => keep
            end
        | _ => keep
        end
      else keep
  end.

Definition form_decode (body : string) : list (string * string) :=
  (λ piece, let '(name, value) := cut_at_eq piece in
            (percent_decode name, percent_decode value))
  <$> filter (λ piece, piece ≠ "") (Split body "&").

(** ** Worlds used as examples *)

Definition ok_response (body : string) : response :=
  {| StatusCode := 200; Body := body; ReadErr := None |}.

(** Every feed is unreachable; the notification endpoint answers 200. *)
Definition world_offline : world :=
  {| telegramBotToken := "T";
     telegramChatID := "42";
     http_Get := λ _, inl "dial tcp: i/o timeout";
     http_Post := λ _ _ _, inr (ok_response "{}");
     xml_Unmarshal := λ _, inl "EOF" |}.

(** Every feed is served, its body being its own address, and decodes to
    one item titled by that body, with one location and one prize
    line. *)
Definition world_online : world :=
  {| telegramBotToken := "T";
     telegramChatID := "42";
     http_Get := λ url, inr (ok_response url);
     http_Post := λ _ _ _, inr (ok_response "{}");
     xml_Unmarshal := λ data,
       inr {| Channel := {| Items :=
              [ {| Title := data; Description := "[A]<br>G.1: 1"; PubDate := "" |} ] |} |} |}.

(** The endpoint rejects the request: it answers, with status 403. *)
Definition world_rejected : world :=
  {| telegramBotToken := "T";
     telegramChatID := "42";
     http_Get := λ _, inl "dial tcp: i/o timeout";
     http_Post := λ _ _ _, inr {| StatusCode := 403; Body := "Forbidden"; ReadErr := None |};
     xml_Unmarshal := λ _, inl "EOF" |}.

(** Only the northern feed is served. *)
Definition world_north_only : world :=
  {| telegramBotToken := "T";
     telegramChatID := "42";
     http_Get := λ url,
       if decide (url = "https://xosodaiphat.com/ket-qua-xo-so-mien-bac-xsmb.rss")
       then inr (ok_response "XSMB") else inl "dial tcp: i/o timeout";
     http_Post := λ _ _ _, inr (ok_response "{}");
     xml_Unmarshal := λ data,
       inr {| Channel := {| Items :=
              [ {| Title := data; Description := "[A]<br>G.1: 1"; PubDate := "" |} ] |} |} |}.


(** [occurs b s]: the byte [b] occurs in [s]. *)
Fixpoint occurs (b : ascii) (s : string) : bool :=
  match s with
  | "" => false
  | String c s' => Ascii.eqb c b || occurs b s'
  end.

(** What replacing [old] by a newline makes of the separator [sep]. *)
Definition replaced (old sep : string) : string :=
  if decide (sep = old) then nl else sep.

(** ** Descriptions used as examples *)

(** ["[A]\nG.1: x\nG.2: y\n[B]\nG.3: z"] *)
Definition order_example : string :=
  "[A]" +:+ nl +:+ "G.1: x" +:+ nl +:+ "G.2: y" +:+ nl +:+
  "[B]" +:+ nl +:+ "G.3: z".

(** ** Lines put back together *)

(** The lines joined by [sep], as [strings.Join] does. *)
Fixpoint join_lines (sep : string) (lines : list string) : string :=
  match lines with
  | [] => ""
  | [l] => l
  | l :: ls => l +:+ sep +:+ join_lines sep ls
  end.

(** ** What a run reads of a feed *)

Definition is_get (e : event) : bool :=
  match e with HttpGet _ => true | _ => false end.

(** The title and the description of the first item, when the fetch
    gives one. *)
Definition first_item (w : world) (url : string) : option (string * string) :=
  match fetchRSS w url with
  | inr rss =>
      match Items (Channel rss) with
      | it :: _ => Some (Title it, Description it)
      | [] => None
      end
  | inl _ => None
  end.

(** ** The process: [init] and [main] *)

(** [os.Getenv]: the value of the variable, empty when it is not set. *)
Definition Getenv (environ : gmap string string) (key : string) : string :=
  default "" (environ !! key).

(** [godotenv.Load]: the variables of the file [.env] (an error when it
    cannot be read) are set in the environment, those already present
    there being left as they are. *)
Definition godotenv_Load (environ : gmap string string)
    (dotenv : error + gmap string string) : gmap string string * option error :=
  match dotenv with
  | inl err => (environ, Some err)
  | inr vars => (environ ∪ vars, None)
  end.

(** [init]: what it prints, and the two globals [telegramBotToken] and
    [telegramChatID], or [None] when it ends the process by
    [os.Exit(1)]. *)
Definition init (environ : gmap string string)
    (dotenv : error + gmap string string) : list event * option (string * string) :=
  let '(environ, err) := godotenv_Load environ dotenv in
  let out :=
    match err with
    | Some _ =>
        [Stdout ("⚠️ Warning: .env file not found, using system environment variables" +:+ nl)]
    | None => []
    end in
  let token := Getenv environ "TELEGRAM_TOKEN" in
  let chat := Getenv environ "TELEGRAM_TO" in
  if decide (token = "" ∨ chat = "")
  then (out ++ [Stdout ("❌ TELEGRAM_TOKEN or TELEGRAM_TO is missing" +:+ nl)], None)
  else (out, Some (token, chat)).

(** The world of a run once [init] has set the two globals. *)
Definition configure (w : world) (token chat : string) : world :=
  {| telegramBotToken := token;
     telegramChatID := chat;
     http_Get := http_Get w;
     http_Post := http_Post w;
     xml_Unmarshal := xml_Unmarshal w |}.

(** What [main] asks of the packages [time] and [cron]: the time zone
    of a name, and whether a schedule is accepted. *)
Record scheduler := {
  LoadLocation : string → error + string;
  AddFunc : string → option error
}.

(** What the process does: an event of a run, the registration of
    [runJob] under a schedule in a time zone, the start of the
    scheduler. *)
Inductive proc_event :=
  | Did (e : event)
  | Registered (spec location : string)
  | Started.

(** How [main] ends: the process exits with a status, or it waits in
    [select {}] for the scheduler to fire. *)
Inductive proc_end :=
  | Exit (code : Z)
  | Waits.

Definition is_network (e : proc_event) : bool :=
  match e with
  | Did (HttpGet _) | Did (HttpPost _ _ _) => true
  | _ => false
  end.

(** [main], [runNow] being the value of the flag [-now]. *)
Inductive main (w : world) (s : scheduler) : bool → list proc_event → proc_end → Prop :=
  | main_now tr :
      runJob w tr →
      main w s true
        (Did (Stdout ("🚀 Running job immediately (--now)" +:+ nl)) :: (Did <$> tr))
        (Exit 0)
  | main_no_location err :
      LoadLocation s "Asia/Ho_Chi_Minh" = inl err →
      main w s false
        [Did (Stdout ("❌ Cannot load timezone: " +:+ err +:+ nl))]
        (Exit 1)
  | main_no_schedule loc err :
      LoadLocation s "Asia/Ho_Chi_Minh" = inr loc →
      AddFunc s "30 18 * * *" = Some err →
      main w s false
        [Did (Stdout ("❌ Cannot schedule job: " +:+ err +:+ nl))]
        (Exit 1)
  | main_scheduled loc :
      LoadLocation s "Asia/Ho_Chi_Minh" = inr loc →
      AddFunc s "30 18 * * *" = None →
      main w s false
        [Registered "30 18 * * *" loc;
         Did (Stdout ("⏰ Scheduler started... Waiting for 18:30 Asia/Ho_Chi_Minh" +:+ nl));
         Started]
        Waits.

(** The process: [init], then [main] with the globals that [init]
    set.  [w] gives the network; its two configuration fields are not
    read. *)
Inductive process (environ : gmap string string)
    (dotenv : error + gmap string string) (w : world) (s : scheduler)
    (runNow : bool) : list proc_event → proc_end → Prop :=
  | process_no_config :
      (init environ dotenv).2 = None →
      process environ dotenv w s runNow (Did <$> (init environ dotenv).1) (Exit 1)
  | process_main token chat tr e :
      (init environ dotenv).2 = Some (token, chat) →
      main (configure w token chat) s runNow tr e →
      process environ dotenv w s runNow ((Did <$> (init environ dotenv).1) ++ tr) e.

(** A scheduler that accepts the time zone and the schedule. *)
Definition scheduler_ok : scheduler :=
  {| LoadLocation := λ name, inr name; AddFunc := λ _, None |}.

(** An environment with the two variables, one with the token alone. *)
Definition environ_ok : gmap string string :=
  <["TELEGRAM_TOKEN" := "T"]> (<["TELEGRAM_TO" := "42"]> ∅).

Definition environ_no_chat : gmap string string :=
  <["TELEGRAM_TOKEN" := "T"]> ∅.

(** A carriage return. *)
Definition cr : string := String (ascii_of_N 13) "".

(** ** Tactics *)

(** Case analysis on a membership in an explicit list of tags. *)
Ltac each_tag H :=
  repeat (apply elem_of_cons in H as [->|H]); [..|by apply elem_of_nil in H].

(** Evaluates [replaced] on two literals. *)
Ltac eval_replaced :=
  repeat match goal with
  | |- context [replaced ?a ?b] =>
      let v := eval vm_compute in (replaced a b) in
      change (replaced a b) with v
  end.

(** ** The model at work *)

Example TrimSpace_unicode :
  TrimSpace (bytes [32; 194; 160; 9; 65; 32; 66; 226; 128; 128; 13; 10]%N) = "A B".
Proof. reflexivity. Qed.

(** A lone continuation byte or a truncated sequence is not a space. *)
Example TrimSpace_ill_formed :
  TrimSpace (bytes [32; 194; 9; 65; 128; 128; 10]%N) = bytes [194; 9; 65; 128; 128]%N.
Proof. reflexivity. Qed.

Example Split_empty : Split "" nl = [""].
Proof. reflexivity. Qed.

Example desc_lines_breaks :
  desc_lines "a<br>b<br/>  c d <br />e<BR>f<br" = ["a"; "b"; "  c d "; "e<BR>f<br"].
Proof. reflexivity. Qed.

Example parseDescription_repeated_location :
  parseDescription "G.0: a<br>[X]<br>G.1: b<br>[Y]<br>note<br>[X]<br>G.2: c" =
  {[ "" := ["G.0: a"]; "[X]" := ["G.1: b"; "G.2: c"] ]}.
Proof. vm_compute. reflexivity. Qed.

Example runJob_offline :
  runJob_with world_offline map_to_list [north] =
  [ HttpGet "https://xosodaiphat.com/ket-qua-xo-so-mien-bac-xsmb.rss";
    Stdout ("Error fetching: dial tcp: i/o timeout" +:+ nl);
    HttpPost "https://api.telegram.org/botT/sendMessage"
      "application/x-www-form-urlencoded"
      ("chat_id=42&text=🎰 *Kết quả xổ số hôm nay*" +:+ nl +:+ nl);
    Stdout ("✅ Sent to Telegram successfully" +:+ nl) ].
Proof. reflexivity. Qed.

(** ** Properties of the extractor *)

Lemma parse_line_classify m cur l :
  parse_line (m, cur) l =
  match classify l with
  | Blank | Other => (m, cur)
  | Location => (m, TrimSpace l)
  | Prize => (<[cur := default [] (m !! cur) ++ [TrimSpace l]]> m, cur)
  end.
Proof.
  unfold parse_line, classify, isLocation, isPrize.
  destruct (decide (TrimSpace l = "")); [done|].
  destruct (HasPrefix (TrimSpace l) "[" && Contains (TrimSpace l) "]"); [done|].
  by destruct (HasPrefix (TrimSpace l) "G.").
Qed.

Lemma prizes_under_cons k c p tagged :
  prizes_under k ((c, p) :: tagged) =
  if decide (c = k) then p :: prizes_under k tagged else prizes_under k tagged.
Proof.
  unfold prizes_under. rewrite filter_cons. simpl.
  by destruct (decide (c = k)).
Qed.

(** The table after the loop, entry by entry: the prize lines met under
    [k] are appended, in order, to what [k] held before. *)
Lemma parse_lines_lookup lines m cur k :
  (parse_lines (m, cur) lines).1 !! k =
  match prizes_under k (located_prizes cur lines) with
  | [] => m !! k
  | new => Some (default [] (m !! k) ++ new)
  end.
Proof.
  revert m cur. induction lines as [|l ls IH]; intros m cur; [done|].
  change (parse_lines (m, cur) (l :: ls))
    with (parse_lines (parse_line (m, cur) l) ls).
  rewrite parse_line_classify. simpl.
  destruct (classify l); rewrite IH; try done.
  rewrite prizes_under_cons.
  destruct (decide (cur = k)) as [->|Hne].
  - rewrite lookup_insert_eq. simpl.
    destruct (prizes_under k (located_prizes k ls)); [done|].
    by rewrite <- app_assoc.
  - by rewrite lookup_insert_ne.
Qed.

Lemma parseDescription_lookup desc k :
  parseDescription desc !! k =
  match prizes_under k (located_prizes "" (desc_lines desc)) with
  | [] => None
  | v => Some v
  end.
Proof.
  unfold parseDescription. rewrite parse_lines_lookup, lookup_empty.
  by destruct (prizes_under _ _).
Qed.

Lemma classify_Location l : classify l = Location → isLocation (TrimSpace l) = true.
Proof.
  unfold classify. destruct (decide _); [done|].
  destruct (isLocation _); [done|]. by destruct (isPrize _).
Qed.

Lemma classify_Prize l :
  classify l = Prize →
  isPrize (TrimSpace l) = true ∧ isLocation (TrimSpace l) = false.
Proof.
  unfold classify. destruct (decide _); [done|].
  destruct (isLocation _); [done|]. by destruct (isPrize _).
Qed.

Lemma classify_neither l :
  isLocation (TrimSpace l) = false → isPrize (TrimSpace l) = false →
  classify l = Blank ∨ classify l = Other.
Proof.
  unfold classify. intros -> ->. destruct (decide _); auto.
Qed.

Lemma isPrize_not_Location p : isPrize p = true → isLocation p = false.
Proof.
  unfold isPrize, isLocation. destruct p as [|c p]; [done|]. simpl.
  destruct (Ascii.eqb_spec c "G"); [subst; done|done].
Qed.

(** Every located prize line is the trimming of a prize line of the
    text, and its location is [cur] or a location line of the text. *)
Lemma located_prizes_elem cur lines k p :
  (k, p) ∈ located_prizes cur lines →
  (k = cur ∨ ∃ l, l ∈ lines ∧ classify l = Location ∧ k = TrimSpace l) ∧
  (∃ l, l ∈ lines ∧ classify l = Prize ∧ p = TrimSpace l).
Proof.
  revert cur. induction lines as [|l ls IH]; intros cur; simpl.
  { by intros ?%elem_of_nil. }
  destruct (classify l) eqn:Hc.
  - intros [[?|(l'&?&?&?)] (l''&?&?&?)]%IH; split;
      first [by left | right; exists l'; by rewrite elem_of_cons; auto
            | exists l''; by rewrite elem_of_cons; auto].
  - intros [[?|(l'&?&?&?)] (l''&?&?&?)]%IH; split;
      first [right; exists l; by rewrite elem_of_cons; auto
            | right; exists l'; by rewrite elem_of_cons; auto
            | exists l''; by rewrite elem_of_cons; auto].
  - intros [Heq|Hin]%elem_of_cons.
    + simplify_eq. split; [by left|]. exists l. by rewrite elem_of_cons; auto.
    + apply IH in Hin as [[?|(l'&?&?&?)] (l''&?&?&?)]; split;
      first [by left | right; exists l'; by rewrite elem_of_cons; auto
            | exists l''; by rewrite elem_of_cons; auto].
  - intros [[?|(l'&?&?&?)] (l''&?&?&?)]%IH; split;
      first [by left | right; exists l'; by rewrite elem_of_cons; auto
            | exists l''; by rewrite elem_of_cons; auto].
Qed.

Lemma prizes_under_elem k p tagged :
  p ∈ prizes_under k tagged ↔ (k, p) ∈ tagged.
Proof.
  unfold prizes_under. rewrite list_elem_of_fmap. split.
  - intros ([k' p'] & -> & [Hk Hin]%list_elem_of_filter). simpl in *. by subst.
  - intros Hin. exists (k, p). split; [done|]. by apply list_elem_of_filter.
Qed.

(** The prize lines, whatever their location, are a subsequence of the
    trimmed lines of the text. *)
Lemma located_prizes_sublist cur lines :
  (located_prizes cur lines).*2 `sublist_of` (TrimSpace <$> lines).
Proof.
  revert cur. induction lines as [|l ls IH]; intros cur; simpl; [done|].
  destruct (classify l); simpl;
    first [by apply sublist_cons | by apply sublist_skip].
Qed.

Lemma prizes_under_sublist k tagged :
  prizes_under k tagged `sublist_of` tagged.*2.
Proof.
  unfold prizes_under. apply fmap_sublist, sublist_filter.
Qed.

Lemma parseDescription_values_nonempty desc k v :
  parseDescription desc !! k = Some v → v ≠ [].
Proof.
  rewrite parseDescription_lookup.
  destruct (prizes_under _ _); [done|]. by intros [= <-].
Qed.

Lemma parse_lines_app st l1 l2 :
  parse_lines st (l1 ++ l2) = parse_lines (parse_lines st l1) l2.
Proof. apply foldl_app. Qed.

Lemma parse_lines_no_prize m cur lines :
  Forall (λ l, classify l ≠ Prize) lines →
  (parse_lines (m, cur) lines).1 = m.
Proof.
  revert cur. induction lines as [|l ls IH]; intros cur Hall; [done|].
  inversion_clear Hall as [|?? Hl Hls].
  change (parse_lines (m, cur) (l :: ls))
    with (parse_lines (parse_line (m, cur) l) ls).
  rewrite parse_line_classify. destruct (classify l); by auto.
Qed.

(** A line that is neither kind of marker leaves the state alone. *)
Lemma parse_line_neither st x :
  isLocation (TrimSpace x) = false → isPrize (TrimSpace x) = false →
  parse_line st x = st.
Proof.
  intros Hl Hp. destruct st as [m cur]. rewrite parse_line_classify.
  by destruct (classify_neither x Hl Hp) as [-> | ->].
Qed.

(** ** C1 *)

(** C1, as stated, fails: the table is a Go map, whose entries come out
    of [range] in any order; for the description of the claim the
    enumeration with [B] first is as good as the one with [A] first. *)
Lemma parseDescription_order_not_fixed :
  ¬ (∀ l, range_order (parseDescription order_example) l →
          l = [("[A]", ["G.1: x"; "G.2: y"]); ("[B]", ["G.3: z"])]).
Proof.
  intros H.
  specialize (H [("[B]", ["G.3: z"]); ("[A]", ["G.1: x"; "G.2: y"])]).
  assert (map_to_list (parseDescription order_example) =
          [("[A]", ["G.1: x"; "G.2: y"]); ("[B]", ["G.3: z"])]) as Hl
    by (vm_compute; reflexivity).
  unfold range_order in H. rewrite Hl in H.
  specialize (H (Permutation_swap _ _ _)). discriminate H.
Qed.

(** C1 (amended): the table maps each location line (brackets included,
    the empty string before the first one) under which a prize line
    occurs to the prize lines met under it, in exactly the order of the
    text: the value of a key is the subsequence of the trimmed lines
    made of the prize lines located under it.  For the description of
    the claim the table has the two entries ["[A]"] and ["[B]"].  The
    order between locations is not part of the table. *)
Theorem parseDescription_lines_in_source_order :
  (∀ desc k,
     parseDescription desc !! k =
     match prizes_under k (located_prizes "" (desc_lines desc)) with
     | [] => None
     | v => Some v
     end) ∧
  (∀ desc k v,
     parseDescription desc !! k = Some v →
     v `sublist_of` (TrimSpace <$> desc_lines desc)) ∧
  parseDescription order_example =
    {[ "[A]" := ["G.1: x"; "G.2: y"]; "[B]" := ["G.3: z"] ]}.
Proof.
  split; [apply parseDescription_lookup|]. split.
  - intros desc k v. rewrite parseDescription_lookup.
    intros Hv. assert (v = prizes_under k (located_prizes "" (desc_lines desc))) as ->.
    { destruct (prizes_under _ _); by simplify_eq. }
    etrans; [apply prizes_under_sublist|apply located_prizes_sublist].
  - vm_compute. reflexivity.
Qed.

Lemma parseDescription_lines_in_source_order_witness :
  parseDescription order_example !! "[A]" = Some ["G.1: x"; "G.2: y"] ∧
  ["G.1: x"; "G.2: y"] `sublist_of` (TrimSpace <$> desc_lines order_example).
Proof.
  split; [reflexivity|].
  apply (proj1 (proj2 parseDescription_lines_in_source_order)
           order_example "[A]").
  reflexivity.
Defined.

(** ** C2 *)

(** C2, as stated, fails where there is no prize line: the table is then
    empty, it has no key at all. *)
Lemma parseDescription_no_prize_no_key :
  let desc := "Ket qua xo so" in
  Forall (λ l, isLocation (TrimSpace l) = false) (desc_lines desc) ∧
  parseDescription desc !! "" = None ∧
  ¬ (∃ v, parseDescription desc = {[ "" := v ]}).
Proof.
  split; [by repeat constructor|]. split; [reflexivity|].
  intros [v Hv].
  assert (parseDescription "Ket qua xo so" !! "" = None) as Hnone by reflexivity.
  rewrite Hv, lookup_singleton_eq in Hnone. discriminate Hnone.
Qed.

Lemma located_prizes_no_location cur lines :
  Forall (λ l, isLocation (TrimSpace l) = false) lines →
  located_prizes cur lines =
  (cur,.) <$> filter (λ l, isPrize l = true) (TrimSpace <$> lines).
Proof.
  induction 1 as [|l ls Hl _ IH]; [done|]. simpl.
  rewrite filter_cons. unfold classify. rewrite Hl.
  destruct (decide (TrimSpace l = "")) as [He|_].
  - rewrite He. simpl. destruct (decide (false = true)); [done|]. by rewrite IH.
  - destruct (isPrize (TrimSpace l));
      destruct (decide _); try done; simpl; by rewrite IH.
Qed.

Lemma prizes_under_same k ps : prizes_under k ((k,.) <$> ps) = ps.
Proof.
  induction ps as [|p ps IH]; [done|].
  rewrite fmap_cons, prizes_under_cons, decide_True by done. by rewrite IH.
Qed.

Lemma prizes_under_other k c ps : c ≠ k → prizes_under k ((c,.) <$> ps) = [].
Proof.
  intros Hne. induction ps as [|p ps IH]; [done|].
  by rewrite fmap_cons, prizes_under_cons, decide_False.
Qed.

(** C2 (amended): for a description none of whose lines is a location
    marker, the table has no key but the empty string; when some line
    is a prize line it is exactly the entry of the empty string, which
    holds every prize line in the order of the text, and when none is,
    the table is empty. *)
Theorem parseDescription_no_location desc :
  Forall (λ l, isLocation (TrimSpace l) = false) (desc_lines desc) →
  let prizes := filter (λ l, isPrize l = true) (TrimSpace <$> desc_lines desc) in
  parseDescription desc = if decide (prizes = []) then ∅ else {[ "" := prizes ]}.
Proof.
  intros Hno prizes. apply map_eq. intros k.
  rewrite parseDescription_lookup, located_prizes_no_location by done.
  fold prizes. destruct (decide (k = "")) as [->|Hk].
  - rewrite prizes_under_same. destruct (decide (prizes = [])) as [->|Hne].
    + by rewrite lookup_empty.
    + rewrite lookup_singleton_eq. by destruct prizes.
  - rewrite prizes_under_other by done.
    destruct (decide (prizes = [])); [by rewrite lookup_empty|].
    by rewrite lookup_singleton_ne.
Qed.

Lemma parseDescription_no_location_witness :
  parseDescription ("G.1: 12345<br>  G.2: 678 <br/>xem them") =
  {[ "" := ["G.1: 12345"; "G.2: 678"] ]}.
Proof.
  apply (parseDescription_no_location "G.1: 12345<br>  G.2: 678 <br/>xem them").
  vm_compute. repeat constructor.
Defined.

(** ** C3 *)

(** C3, as stated, fails: a location line with no prize line after it
    creates no entry. *)
Lemma parseDescription_lone_location_absent :
  desc_lines "[A]" = [] ++ "[A]" :: [] ++ [] ∧
  classify "[A]" = Location ∧
  parseDescription "[A]" !! "[A]" = None ∧
  parseDescription "[A]" !! "[A]" ≠ Some [].
Proof. by repeat split. Qed.

(** C3 (amended): a location line that no prize line follows before the
    next location line (or the end of the text) leaves no trace in the
    table, which is the one obtained without that line: its label is a
    key only where another occurrence of it is followed by a prize
    line.  No key of a table is mapped to the empty sequence. *)
Theorem parseDescription_location_without_prizes desc pre m mid post :
  desc_lines desc = pre ++ m :: mid ++ post →
  classify m = Location →
  Forall (λ l, classify l ≠ Prize) mid →
  (post = [] ∨ ∃ p ps, post = p :: ps ∧ classify p = Location) →
  parseDescription desc = (parse_lines (∅, "") (pre ++ post)).1 ∧
  (∀ k v, parseDescription desc !! k = Some v → v ≠ []).
Proof.
  intros Hlines Hm Hmid Hpost. split; [|apply parseDescription_values_nonempty].
  unfold parseDescription. rewrite Hlines, !parse_lines_app.
  destruct (parse_lines (∅, "") pre) as [r c].
  change (parse_lines (r, c) (m :: mid ++ post))
    with (parse_lines (parse_line (r, c) m) (mid ++ post)).
  rewrite parse_line_classify, Hm, parse_lines_app.
  pose proof (parse_lines_no_prize r (TrimSpace m) mid Hmid) as Hr.
  destruct (parse_lines (r, TrimSpace m) mid) as [r' c']. simpl in Hr. subst r'.
  destruct Hpost as [->|(p & ps & -> & Hp)]; [done|].
  change (parse_lines (?m0, ?c0) (p :: ps))
    with (parse_lines (parse_line (m0, c0) p) ps).
  by rewrite !parse_line_classify, Hp.
Qed.

Lemma parseDescription_location_without_prizes_witness :
  parseDescription ("G.1: a<br>[A]<br>note<br>[B]<br>G.2: b") =
  (parse_lines (∅, "") (["G.1: a"] ++ ["[B]"; "G.2: b"])).1 ∧
  (∀ k v, parseDescription ("G.1: a<br>[A]<br>note<br>[B]<br>G.2: b") !! k = Some v →
          v ≠ []).
Proof.
  apply (parseDescription_location_without_prizes
           "G.1: a<br>[A]<br>note<br>[B]<br>G.2: b"
           ["G.1: a"] "[A]" ["note"] ["[B]"; "G.2: b"]).
  - reflexivity.
  - reflexivity.
  - repeat constructor; discriminate.
  - right. exists "[B]", ["G.2: b"]. split; reflexivity.
Defined.

(** ** C9 *)

(** C9: a line that, once trimmed, is neither a location marker nor a
    prize marker is dropped.  The table is the one of the text without
    that line (so the line creates no key), the line is in no value
    list, and, the blank line apart (the empty string is the key of the
    prize lines that precede every location), it is not a key. *)
Theorem parseDescription_drops_other_lines desc pre x post :
  desc_lines desc = pre ++ x :: post →
  isLocation (TrimSpace x) = false →
  isPrize (TrimSpace x) = false →
  parseDescription desc = (parse_lines (∅, "") (pre ++ post)).1 ∧
  (∀ k v, parseDescription desc !! k = Some v → TrimSpace x ∉ v) ∧
  (TrimSpace x ≠ "" → parseDescription desc !! TrimSpace x = None).
Proof.
  intros Hlines Hl Hp. split; [|split].
  - unfold parseDescription. rewrite Hlines, !parse_lines_app.
    change (parse_lines ?st (x :: post))
      with (parse_lines (parse_line st x) post).
    by rewrite parse_line_neither.
  - intros k v. rewrite parseDescription_lookup. intros Hv Hin.
    assert (v = prizes_under k (located_prizes "" (desc_lines desc))) as ->.
    { destruct (prizes_under _ _); by simplify_eq. }
    apply prizes_under_elem, located_prizes_elem in Hin as [_ (l & _ & Hc & Heq)].
    apply classify_Prize in Hc as [Hc _]. congruence.
  - intros Hne. destruct (parseDescription desc !! TrimSpace x) as [v|] eqn:Hv; [|done].
    pose proof (parseDescription_values_nonempty _ _ _ Hv) as Hnil.
    rewrite parseDescription_lookup in Hv.
    assert (v = prizes_under (TrimSpace x) (located_prizes "" (desc_lines desc))) as ->.
    { destruct (prizes_under _ _); by simplify_eq. }
    destruct (prizes_under _ _) as [|p ps] eqn:Hps; [done|].
    assert (p ∈ prizes_under (TrimSpace x) (located_prizes "" (desc_lines desc))) as Hin
      by (rewrite Hps; left).
    apply prizes_under_elem, located_prizes_elem in Hin as [[?|(l & _ & Hc & Heq)] _];
      [done|].
    apply classify_Location in Hc. congruence.
Qed.

Lemma parseDescription_drops_other_lines_witness :
  parseDescription ("[A]<br>G.1: a<br> Xem them tai day <br>G.2: b") =
  (parse_lines (∅, "") (["[A]"; "G.1: a"] ++ ["G.2: b"])).1 ∧
  (∀ k v, parseDescription ("[A]<br>G.1: a<br> Xem them tai day <br>G.2: b") !! k = Some v →
          TrimSpace " Xem them tai day " ∉ v) ∧
  (TrimSpace " Xem them tai day " ≠ "" →
   parseDescription ("[A]<br>G.1: a<br> Xem them tai day <br>G.2: b")
     !! TrimSpace " Xem them tai day " = None).
Proof.
  apply (parseDescription_drops_other_lines
           "[A]<br>G.1: a<br> Xem them tai day <br>G.2: b"
           ["[A]"; "G.1: a"] " Xem them tai day " ["G.2: b"]);
    reflexivity.
Defined.

(** ** Strings: concatenation, prefixes and replacement *)

Lemma app_nil_r_str s : s +:+ "" = s.
Proof. induction s as [|c s IH]; [done|]. unfold String.app in *. simpl. by rewrite IH. Qed.

Lemma app_assoc_str s1 s2 s3 : (s1 +:+ s2) +:+ s3 = s1 +:+ s2 +:+ s3.
Proof.
  induction s1 as [|c s1 IH]; [done|].
  unfold String.app in *. simpl. by rewrite IH.
Qed.

Lemma app_cons_str c s r : String c s +:+ r = String c (s +:+ r).
Proof. done. Qed.

Lemma HasPrefix_length s old :
  HasPrefix s old = true → String.length old ≤ String.length s.
Proof.
  revert s. induction old as [|o old IH]; intros s; simpl; [lia|].
  destruct s as [|c s]; simpl; [done|]. destruct (Ascii.eqb c o); [|done].
  intros ?%IH. lia.
Qed.

(** A prefix test is not affected by what follows a byte that the
    pattern does not contain. *)
Lemma HasPrefix_app_stop q s b r :
  occurs b q = false →
  HasPrefix (s +:+ String b r) q = HasPrefix s q.
Proof.
  revert s. induction q as [|q0 q IH]; intros s Hb; [done|].
  simpl in Hb. apply orb_false_iff in Hb as [Hq0 Hq].
  destruct s as [|c s].
  - change ("" +:+ String b r) with (String b r). simpl.
    rewrite eqb_sym. by rewrite Hq0.
  - rewrite app_cons_str. simpl. destruct (Ascii.eqb c q0); [by apply IH|done].
Qed.

Lemma HasPrefix_cons_app_stop o q c s b r :
  occurs b q = false →
  HasPrefix (String c s +:+ String b r) (String o q) = HasPrefix (String c s) (String o q).
Proof.
  intros Hb. rewrite app_cons_str. simpl.
  destruct (Ascii.eqb c o); [by apply HasPrefix_app_stop|done].
Qed.

(** Replacement goes through a boundary byte that the pattern contains
    only as its first byte, if at all: no occurrence straddles it. *)
Lemma replace_go_app_stop o q new b r s k :
  occurs b q = false →
  k ≤ String.length s →
  replace_go (String o q) new k (s +:+ String b r) =
  replace_go (String o q) new k s +:+ replace_go (String o q) new 0 (String b r).
Proof.
  intros Hb. revert k. induction s as [|c s IH]; intros k Hk.
  - simpl in Hk. assert (k = 0) as -> by lia. done.
  - rewrite app_cons_str.
    destruct k as [|k].
    + cbn [replace_go]. rewrite <- app_cons_str, HasPrefix_cons_app_stop by done.
      destruct (HasPrefix (String c s) (String o q)) eqn:Hp.
      * apply HasPrefix_length in Hp. simpl in Hp.
        rewrite IH by (simpl; lia). by rewrite app_assoc_str.
      * rewrite IH by lia. done.
    + cbn [replace_go]. apply IH. simpl in Hk. lia.
Qed.

Lemma replace_go_app_end old new s k :
  replace_go old new k (s +:+ "") = replace_go old new k s +:+ "".
Proof. by rewrite !app_nil_r_str. Qed.

Lemma replace_go_skip old new x r :
  replace_go old new (String.length x) (x +:+ r) = replace_go old new 0 r.
Proof.
  induction x as [|c x IH]; [by destruct r|].
  rewrite app_cons_str. simpl. apply IH.
Qed.

Lemma HasPrefix_app_self old r : HasPrefix (old +:+ r) old = true.
Proof.
  induction old as [|o old IH]; [done|].
  rewrite app_cons_str. simpl. by rewrite Ascii.eqb_refl.
Qed.

Lemma replace_go_occurrence o q new r :
  replace_go (String o q) new 0 (String o q +:+ r) =
  new +:+ replace_go (String o q) new 0 r.
Proof.
  rewrite app_cons_str. cbn [replace_go].
  rewrite <- app_cons_str, HasPrefix_app_self.
  simpl. rewrite Nat.sub_0_r. by rewrite replace_go_skip.
Qed.

(** ** Break tags and replacement *)

Lemma replace_go_at_sep old sep r :
  old ∈ break_tags → sep ∈ nl :: break_tags →
  replace_go old nl 0 (sep +:+ r) = replaced old sep +:+ replace_go old nl 0 r.
Proof.
  intros Ho Hs. each_tag Ho; each_tag Hs; eval_replaced;
    first [ apply replace_go_occurrence
          | rewrite !app_cons_str; reflexivity ].
Qed.

Lemma replace_go_through_sep old sep s r :
  old ∈ break_tags → sep ∈ nl :: break_tags →
  replace_go old nl 0 (s +:+ sep +:+ r) =
  replace_go old nl 0 s +:+ replaced old sep +:+ replace_go old nl 0 r.
Proof.
  intros Ho Hs. rewrite <- (replace_go_at_sep old sep r) by done.
  each_tag Ho; each_tag Hs; unfold nl;
    rewrite (app_cons_str _ _ r);
    by rewrite replace_go_app_stop by (done || simpl; lia).
Qed.

(** Each of the three spellings becomes one newline, wherever it
    stands. *)
Lemma normalize_break s t r :
  t ∈ break_tags →
  normalize (s +:+ t +:+ r) = normalize s +:+ nl +:+ normalize r.
Proof.
  intros Ht. unfold normalize, ReplaceAll.
  assert (∀ x, x ∈ break_tags → x ∈ nl :: break_tags) as Hin
    by (intros; by right).
  assert ("<br>" ∈ break_tags ∧ "<br/>" ∈ break_tags ∧ "<br />" ∈ break_tags)
    as (H1 & H2 & H3) by (unfold break_tags; rewrite !elem_of_cons; auto 10).
  each_tag Ht.
  - rewrite (replace_go_through_sep "<br>" "<br>") by auto. eval_replaced.
    rewrite (replace_go_through_sep "<br/>" nl) by (auto; by left). eval_replaced.
    by rewrite (replace_go_through_sep "<br />" nl) by (auto; by left).
  - rewrite (replace_go_through_sep "<br>" "<br/>") by auto. eval_replaced.
    rewrite (replace_go_through_sep "<br/>" "<br/>") by auto. eval_replaced.
    by rewrite (replace_go_through_sep "<br />" nl) by (auto; by left).
  - rewrite (replace_go_through_sep "<br>" "<br />") by auto. eval_replaced.
    rewrite (replace_go_through_sep "<br/>" "<br />") by auto. eval_replaced.
    by rewrite (replace_go_through_sep "<br />" "<br />") by auto.
Qed.

Lemma same_but_breaks_normalize d1 d2 :
  same_but_breaks d1 d2 → normalize d1 = normalize d2.
Proof.
  induction 1 as [|s t1 t2 r1 r2 Ht1 Ht2 _ IH]; [done|].
  by rewrite !normalize_break, IH.
Qed.

(** ** C5 *)

(** C5, as stated, fails: an upper-case tag is not replaced, and the two
    prize lines around it stay one line. *)
Lemma parseDescription_upper_case_break :
  parseDescription "G.1: x<br>G.2: y" = {[ "" := ["G.1: x"; "G.2: y"] ]} ∧
  parseDescription "G.1: x<BR>G.2: y" = {[ "" := ["G.1: x<BR>G.2: y"] ]} ∧
  parseDescription "G.1: x<br>G.2: y" ≠ parseDescription "G.1: x<BR>G.2: y".
Proof.
  assert (parseDescription "G.1: x<br>G.2: y" = {[ "" := ["G.1: x"; "G.2: y"] ]}) as H1
    by (vm_compute; reflexivity).
  assert (parseDescription "G.1: x<BR>G.2: y" = {[ "" := ["G.1: x<BR>G.2: y"] ]}) as H2
    by (vm_compute; reflexivity).
  split; [done|]. split; [done|].
  rewrite H1, H2. intros Heq.
  apply (f_equal (.!! "")) in Heq. rewrite !lookup_singleton_eq in Heq.
  discriminate Heq.
Qed.

(** C5 (amended): two description texts that are the same but for which
    of the three lower-case spellings [<br>], [<br/>], [<br />] stands at
    each break have equal tables. *)
Theorem parseDescription_break_spelling d1 d2 :
  same_but_breaks d1 d2 → parseDescription d1 = parseDescription d2.
Proof.
  intros H. unfold parseDescription, desc_lines.
  by rewrite (same_but_breaks_normalize d1 d2 H).
Qed.

Lemma parseDescription_break_spelling_witness :
  parseDescription ("[A]" +:+ "<br>" +:+ "G.1: x" +:+ "<br/>" +:+ "G.2: y") =
  parseDescription ("[A]" +:+ "<br />" +:+ "G.1: x" +:+ "<br>" +:+ "G.2: y").
Proof.
  apply parseDescription_break_spelling.
  apply sbb_break; [by left | by do 2 right; left |].
  apply sbb_break; [by right; left | by left |].
  apply sbb_same.
Defined.

(** ** The report *)

Lemma cat_app l1 l2 : cat (l1 ++ l2) = cat l1 +:+ cat l2.
Proof.
  induction l1 as [|x l1 IH]; [done|].
  simpl. by rewrite IH, app_assoc_str.
Qed.

Lemma finalMessage_render_prizes st ps tail :
  finalMessage (foldl render_prize st ps) +:+ tail =
  finalMessage st +:+ foldr (λ p acc, p +:+ nl +:+ acc) tail ps.
Proof.
  revert st. induction ps as [|p ps IH]; intros st; [done|].
  simpl. rewrite IH. simpl. by rewrite !app_assoc_str.
Qed.

Lemma finalMessage_render_location st e :
  finalMessage (render_location st e) = finalMessage st +:+ group_text e.
Proof.
  destruct e as [loc prizes]. unfold render_location, group_text. simpl.
  rewrite finalMessage_render_prizes.
  destruct (decide (loc ≠ "")); simpl; by rewrite ?app_assoc_str.
Qed.

Lemma finalMessage_render_locations st locs :
  finalMessage (foldl render_location st locs) =
  finalMessage st +:+ cat (group_text <$> locs).
Proof.
  revert st. induction locs as [|e locs IH]; intros st.
  - simpl. by rewrite app_nil_r_str.
  - simpl. by rewrite IH, finalMessage_render_location, app_assoc_str.
Qed.

(** Rendering writes to the message and to standard output only. *)
Lemma posts_render_prizes st ps :
  filter is_post (trace (foldl render_prize st ps)) = filter is_post (trace st).
Proof.
  revert st. induction ps as [|p ps IH]; intros st; [done|].
  simpl. rewrite IH. simpl. by rewrite filter_app, app_nil_r.
Qed.

Lemma posts_render_locations st locs :
  filter is_post (trace (foldl render_location st locs)) = filter is_post (trace st).
Proof.
  revert st. induction locs as [|[loc prizes] locs IH]; intros st; [done|].
  simpl. rewrite IH. simpl. rewrite filter_app, app_nil_r, posts_render_prizes.
  destruct (decide (loc ≠ "")); simpl; by rewrite ?filter_app, ?app_nil_r.
Qed.


Lemma range_order_exists {V} (m : gmap string V) : range_order m (map_to_list m).
Proof. unfold range_order. reflexivity. Qed.

Section RunFacts.

Variable w : world.

Lemma visit_source_total src st : ∃ st', visit_source w src st st'.
Proof.
  destruct src as [region url].
  destruct (fetchRSS w url) as [err|rss] eqn:Hf.
  { eexists. by eapply visit_fetch_error. }
  destruct (Items (Channel rss)) as [|it rest] eqn:Hi.
  { eexists. by eapply visit_no_items. }
  eexists. eapply visit_first_item; [done..|]. apply range_order_exists.
Qed.

Lemma visit_all_total order st : ∃ st', visit_all w order st st'.
Proof.
  revert st. induction order as [|src order IH]; intros st.
  { eexists. constructor. }
  destruct (visit_source_total src st) as [st' Hs].
  destruct (IH st') as [st'' Ha].
  eexists. by econstructor.
Qed.

Lemma build_report_total sources : ∃ st, build_report w sources st.
Proof.
  destruct (visit_all_total (map_to_list sources)
              (WriteString report_header {| finalMessage := ""; trace := [] |}))
    as [st Hst].
  exists st, (map_to_list sources). split; [apply range_order_exists|done].
Qed.

Lemma runJob_total : ∃ tr, runJob w tr.
Proof.
  destruct (build_report_total rssURLs) as [st Hst].
  eexists. exists st. split; [done|reflexivity].
Qed.

Lemma visit_source_message src st st' :
  visit_source w src st st' →
  ∃ pieces, source_pieces w src pieces ∧
            finalMessage st' = finalMessage st +:+ cat pieces.
Proof.
  destruct 1 as [region url err st Hf|region url rss st Hf Hi
                |region url rss it rest locs st Hf Hi Hl].
  - exists []. unfold source_pieces. simpl. rewrite Hf.
    split; [done|]. by rewrite app_nil_r_str.
  - exists []. unfold source_pieces. simpl. rewrite Hf, Hi.
    split; [done|]. by rewrite app_nil_r_str.
  - exists (headline region (Title it) :: (group_text <$> locs)).
    unfold source_pieces. simpl. rewrite Hf, Hi. split; [by exists locs|].
    rewrite finalMessage_render_locations. simpl. by rewrite app_assoc_str.
Qed.

Lemma visit_all_message order st st' :
  visit_all w order st st' →
  ∃ pss, Forall2 (source_pieces w) order pss ∧
         finalMessage st' = finalMessage st +:+ cat (cat <$> pss).
Proof.
  induction 1 as [st|src srcs st st' st'' Hs _ (pss & Hpss & Hm)].
  - exists []. split; [constructor|]. by rewrite app_nil_r_str.
  - apply visit_source_message in Hs as (ps & Hps & Hm').
    exists (ps :: pss). split; [by constructor|].
    rewrite Hm, Hm'. simpl. by rewrite app_assoc_str.
Qed.

Lemma visit_source_posts src st st' :
  visit_source w src st st' →
  filter is_post (trace st') = filter is_post (trace st).
Proof.
  destruct 1; simpl.
  - by rewrite !filter_app, !app_nil_r.
  - by rewrite !filter_app, !app_nil_r.
  - rewrite posts_render_locations. simpl. by rewrite !filter_app, !app_nil_r.
Qed.

Lemma visit_all_posts order st st' :
  visit_all w order st st' →
  filter is_post (trace st') = filter is_post (trace st).
Proof.
  induction 1 as [|src srcs st st' st'' Hs _ IH]; [done|].
  rewrite IH. by eapply visit_source_posts.
Qed.

Lemma source_pieces_not_rendered src pieces :
  rendered w src.2 = false → source_pieces w src pieces → pieces = [].
Proof.
  unfold rendered, source_pieces.
  destruct (fetchRSS w src.2) as [|rss]; [done|].
  by destruct (Items (Channel rss)).
Qed.




End RunFacts.

(** ** Runs under a given enumeration are runs *)

Lemma visit_source_with_sound w pick st src :
  (∀ m, range_order m (pick m)) →
  visit_source w src st (visit_source_with w pick st src).
Proof.
  intros Hpick. destruct src as [region url]. unfold visit_source_with.
  destruct (fetchRSS w url) as [err|rss] eqn:Hf; [by apply visit_fetch_error|].
  destruct (Items (Channel rss)) as [|it rest] eqn:Hi.
  - by eapply visit_no_items.
  - by eapply visit_first_item.
Qed.

Lemma visit_all_with_sound w pick order st :
  (∀ m, range_order m (pick m)) →
  visit_all w order st (foldl (visit_source_with w pick) st order).
Proof.
  intros Hpick. revert st. induction order as [|src order IH]; intros st.
  - constructor.
  - simpl. econstructor; [by apply visit_source_with_sound|apply IH].
Qed.

Lemma build_report_with_sound w pick order :
  (∀ m, range_order m (pick m)) →
  range_order rssURLs order →
  build_report w rssURLs (build_report_with w pick order).
Proof.
  intros Hpick Horder. exists order. split; [done|].
  by apply visit_all_with_sound.
Qed.

Lemma runJob_with_sound w pick order :
  (∀ m, range_order m (pick m)) →
  range_order rssURLs order →
  runJob w (runJob_with w pick order).
Proof.
  intros Hpick Horder. exists (build_report_with w pick order).
  split; [by apply build_report_with_sound|done].
Qed.

Lemma range_order_north_first : range_order rssURLs north_first.
Proof.
  unfold range_order, rssURLs, north_first, north, centre, south.
  rewrite !map_to_list_insert, map_to_list_empty by done. reflexivity.
Qed.

Lemma range_order_south_first : range_order rssURLs south_first.
Proof.
  unfold range_order. rewrite <- range_order_north_first.
  symmetry. apply (Permutation_rev north_first).
Qed.

(** ** Substrings of the message *)








Lemma cat_not_rendered w order pss :
  Forall (λ src, rendered w src.2 = false) order →
  Forall2 (source_pieces w) order pss →
  cat (cat <$> pss) = "".
Proof.
  intros Hall H2. induction H2 as [|src ps order pss Hps _ IH]; [done|].
  inversion_clear Hall as [|?? Hsrc Hrest].
  rewrite (source_pieces_not_rendered w src ps Hsrc Hps). simpl. by apply IH.
Qed.

(** ** C4 *)




(** ** C6 *)

(** C6: every run makes exactly one request to the notification
    endpoint, and runs exist whatever the feeds do; when no source is
    rendered, the text sent is the fixed header alone. *)
Theorem runJob_notifies_once w :
  (∃ tr, runJob w tr) ∧
  (∀ tr, runJob w tr →
     length (filter is_post tr) = 1 ∧
     ((∀ region url, rssURLs !! region = Some url → rendered w url = false) →
      filter is_post tr =
        [HttpPost (telegram_url w) form_type (telegram_payload w report_header)])).
Proof.
  split; [apply runJob_total|].
  intros tr (st & (order & Horder & Hv) & ->).
  rewrite filter_app, (visit_all_posts _ _ _ _ Hv). simpl.
  assert (filter is_post
            [(sendToTelegram w (finalMessage st)).1;
             report_sent (sendToTelegram w (finalMessage st)).2] =
          [HttpPost (telegram_url w) form_type (telegram_payload w (finalMessage st))])
    as ->.
  { unfold sendToTelegram.
    by destruct (http_Post w (telegram_url w) form_type
                   (telegram_payload w (finalMessage st))). }
  split; [done|]. intros Hnone.
  apply visit_all_message in Hv as (pss & Hpss & ->).
  assert (Forall (λ src, rendered w src.2 = false) order) as Hall.
  { apply Forall_forall. intros [region url] Hin. simpl.
    apply (Hnone region). apply elem_of_map_to_list.
    unfold range_order in Horder. by rewrite <- Horder. }
  rewrite (cat_not_rendered w order pss Hall Hpss). simpl.
  by rewrite app_nil_r_str.
Qed.

Lemma runJob_notifies_once_witness :
  runJob world_offline (runJob_with world_offline map_to_list north_first) ∧
  filter is_post (runJob_with world_offline map_to_list north_first) =
    [HttpPost "https://api.telegram.org/botT/sendMessage" form_type
       ("chat_id=42&text=" +:+ report_header)].
Proof.
  assert (runJob world_offline (runJob_with world_offline map_to_list north_first))
    as Hrun
    by (apply runJob_with_sound;
        [apply range_order_exists|apply range_order_north_first]).
  split; [exact Hrun|].
  apply (proj2 (runJob_notifies_once world_offline) _ Hrun).
  intros region url _. reflexivity.
Defined.

(** ** C7 *)



(** ** C8 *)

(** C8 fails on the code: the message is pasted into the body as it is.
    With the message [a&b=c] the body has three fields and its text
    field is [a]; with [1+1] the text field reads [1 1]. *)
Theorem sendToTelegram_body_not_escaped :
  (sendToTelegram world_offline "a&b=c").1 =
    HttpPost "https://api.telegram.org/botT/sendMessage"
      "application/x-www-form-urlencoded" "chat_id=42&text=a&b=c" ∧
  form_decode "chat_id=42&text=a&b=c" =
    [("chat_id", "42"); ("text", "a"); ("b", "c")] ∧
  form_decode (telegram_payload world_offline "1+1") =
    [("chat_id", "42"); ("text", "1 1")].
Proof. repeat split; vm_compute; reflexivity. Qed.

(** ** C10 *)

(** C10: [sendToTelegram] returns [nil] as soon as the request got a
    response, whatever the response, and the error of the transport
    otherwise; two runs whose requests were both answered, be it with
    200 and with 403, return the same to the caller. *)
Theorem sendToTelegram_ignores_status w message :
  (∀ resp,
     http_Post w (telegram_url w) form_type (telegram_payload w message) = inr resp →
     (sendToTelegram w message).2 = None) ∧
  (∀ err,
     http_Post w (telegram_url w) form_type (telegram_payload w message) = inl err →
     (sendToTelegram w message).2 = Some err) ∧
  (∀ w' resp resp',
     telegramBotToken w' = telegramBotToken w →
     telegramChatID w' = telegramChatID w →
     http_Post w (telegram_url w) form_type (telegram_payload w message) = inr resp →
     http_Post w' (telegram_url w') form_type (telegram_payload w' message) = inr resp' →
     sendToTelegram w' message = sendToTelegram w message).
Proof.
  unfold sendToTelegram. repeat split.
  - by intros resp ->.
  - by intros err ->.
  - intros w' resp resp' Htok Hchat -> ->.
    unfold telegram_url, telegram_payload. by rewrite Htok, Hchat.
Qed.

Lemma sendToTelegram_ignores_status_witness :
  (sendToTelegram world_rejected "x").2 = None ∧
  sendToTelegram world_rejected "x" = sendToTelegram world_offline "x".
Proof.
  destruct (sendToTelegram_ignores_status world_offline "x") as (_ & _ & Hsame).
  split.
  - apply (proj1 (sendToTelegram_ignores_status world_rejected "x")
             {| StatusCode := 403; Body := "Forbidden"; ReadErr := None |}).
    reflexivity.
  - apply (Hsame world_rejected (ok_response "{}")
             {| StatusCode := 403; Body := "Forbidden"; ReadErr := None |});
      reflexivity.
Defined.

(** ** More on strings: reversal, trimming, splitting *)

Lemma rev_app_acc s acc : String.rev_app s acc = String.rev s +:+ acc.
Proof.
  unfold String.rev. revert acc. induction s as [|c s IH]; intros acc; [done|].
  simpl. rewrite (IH (String c "")), (IH (String c acc)).
  by rewrite app_assoc_str.
Qed.

Lemma rev_cons c s : String.rev (String c s) = String.rev s +:+ String c "".
Proof. unfold String.rev at 1. simpl. apply rev_app_acc. Qed.

Lemma rev_app_str a b : String.rev (a +:+ b) = String.rev b +:+ String.rev a.
Proof.
  induction a as [|c a IH].
  - change ("" +:+ b) with b. by rewrite app_nil_r_str.
  - rewrite app_cons_str, !rev_cons, IH. by rewrite app_assoc_str.
Qed.

Lemma rev_involutive_str s : String.rev (String.rev s) = s.
Proof.
  induction s as [|c s IH]; [done|].
  by rewrite rev_cons, rev_app_str, IH.
Qed.

Lemma occurs_app c a b : occurs c (a +:+ b) = occurs c a || occurs c b.
Proof.
  induction a as [|x a IH]; [done|].
  rewrite app_cons_str. simpl. by rewrite IH, orb_assoc.
Qed.

Lemma HasPrefix_app_l s r old :
  HasPrefix s old = true → HasPrefix (s +:+ r) old = true.
Proof.
  revert s. induction old as [|o old IH]; intros s; [done|].
  destruct s as [|c s]; [done|]. rewrite app_cons_str. simpl.
  destruct (Ascii.eqb c o); [apply IH|done].
Qed.

Lemma leading_width_nil ws : leading_width ws "" = 0.
Proof.
  induction ws as [|w ws IH]; [done|]. simpl. by destruct w.
Qed.

Lemma leading_width_app ws s r :
  Forall (λ w, w ≠ "") ws →
  leading_width ws s ≠ 0 → leading_width ws (s +:+ r) ≠ 0.
Proof.
  induction 1 as [|w ws Hw _ IH]; [done|]. simpl.
  destruct (HasPrefix s w) eqn:Hp.
  - rewrite (HasPrefix_app_l _ _ _ Hp). by destruct w.
  - intros Hs. destruct (HasPrefix (s +:+ r) w); [by destruct w|]. by apply IH.
Qed.

Lemma trim_go_fixed ws s : leading_width ws s = 0 → trim_go ws 0 s = s.
Proof.
  destruct s as [|c s]; [done|]. simpl.
  intros H. simpl in H. by rewrite H.
Qed.

Lemma trim_go_trimmed ws k s : leading_width ws (trim_go ws k s) = 0.
Proof.
  revert k. induction s as [|c s IH]; intros k.
  - apply leading_width_nil.
  - destruct k as [|k]; [|apply IH].
    cbn [trim_go]. destruct (leading_width ws (String c s)) eqn:Hw; [done|apply IH].
Qed.

(** Trimming removes a prefix. *)
Lemma trim_go_suffix ws k s : ∃ y, s = y +:+ trim_go ws k s.
Proof.
  revert k. induction s as [|c s IH]; intros k.
  - by exists "".
  - destruct k as [|k].
    + cbn [trim_go]. destruct (leading_width ws (String c s)).
      * by exists "".
      * destruct (IH n) as [y Hy]. exists (String c y).
        by rewrite app_cons_str, <- Hy.
    + cbn [trim_go]. destruct (IH k) as [y Hy]. exists (String c y).
      by rewrite app_cons_str, <- Hy.
Qed.

Lemma white_space_nonempty : Forall (λ w, w ≠ "") white_space.
Proof. unfold white_space. repeat constructor; discriminate. Qed.

(** [TrimSpace s] is [s] without a prefix and a suffix. *)
Lemma TrimSpace_inside s : ∃ a b, s = a +:+ TrimSpace s +:+ b.
Proof.
  unfold TrimSpace.
  destruct (trim_go_suffix white_space 0 s) as [a Ha].
  destruct (trim_go_suffix (String.rev <$> white_space) 0
              (String.rev (trim_go white_space 0 s))) as [b Hb].
  exists a, (String.rev b).
  rewrite <- rev_app_str, <- Hb, rev_involutive_str. exact Ha.
Qed.

Lemma TrimSpace_no_leading s : leading_width white_space (TrimSpace s) = 0.
Proof.
  unfold TrimSpace.
  destruct (trim_go_suffix (String.rev <$> white_space) 0
              (String.rev (trim_go white_space 0 s))) as [b Hb].
  apply (f_equal String.rev) in Hb.
  rewrite rev_involutive_str, rev_app_str in Hb.
  destruct (leading_width white_space
              (String.rev (trim_go (String.rev <$> white_space) 0
                 (String.rev (trim_go white_space 0 s))))) eqn:Hw; [done|].
  pose proof (trim_go_trimmed white_space 0 s) as Ht.
  rewrite Hb in Ht.
  by apply (leading_width_app _ _ (String.rev b) white_space_nonempty) in Ht;
    [|rewrite Hw].
Qed.

Lemma TrimSpace_no_trailing s :
  leading_width (String.rev <$> white_space) (String.rev (TrimSpace s)) = 0.
Proof.
  unfold TrimSpace. rewrite rev_involutive_str. apply trim_go_trimmed.
Qed.

Lemma TrimSpace_fixed s :
  leading_width white_space s = 0 →
  leading_width (String.rev <$> white_space) (String.rev s) = 0 →
  TrimSpace s = s.
Proof.
  intros Hl Hr. unfold TrimSpace.
  by rewrite (trim_go_fixed _ _ Hl), (trim_go_fixed _ _ Hr), rev_involutive_str.
Qed.

Lemma TrimSpace_idempotent s : TrimSpace (TrimSpace s) = TrimSpace s.
Proof.
  apply TrimSpace_fixed; [apply TrimSpace_no_leading|apply TrimSpace_no_trailing].
Qed.

(** *** Splitting at a byte *)

Lemma split_go_cons c cur x s :
  split_go (String c "") 0 cur (String x s) =
  if Ascii.eqb x c then cur :: split_go (String c "") 0 "" s
  else split_go (String c "") 0 (cur +:+ String x "") s.
Proof. simpl. by destruct (Ascii.eqb x c). Qed.

Lemma split_go_nonempty c cur s : split_go (String c "") 0 cur s ≠ [].
Proof.
  revert cur. induction s as [|x s IH]; intros cur; [done|].
  rewrite split_go_cons. destruct (Ascii.eqb x c); [done|apply IH].
Qed.

Lemma split_go_app c cur a b :
  split_go (String c "") 0 cur (a +:+ String c b) =
  split_go (String c "") 0 cur a ++ split_go (String c "") 0 "" b.
Proof.
  revert cur. induction a as [|x a IH]; intros cur.
  - change ("" +:+ String c b) with (String c b).
    rewrite split_go_cons, Ascii.eqb_refl. done.
  - rewrite app_cons_str, !split_go_cons.
    destruct (Ascii.eqb x c); [|apply IH]. by rewrite IH.
Qed.

Lemma join_lines_cons sep l ls :
  ls ≠ [] → join_lines sep (l :: ls) = l +:+ sep +:+ join_lines sep ls.
Proof. by destruct ls. Qed.

Lemma split_go_join c cur s :
  join_lines (String c "") (split_go (String c "") 0 cur s) = cur +:+ s.
Proof.
  revert cur. induction s as [|x s IH]; intros cur.
  - simpl. by rewrite app_nil_r_str.
  - rewrite split_go_cons. destruct (Ascii.eqb_spec x c) as [->|_].
    + rewrite join_lines_cons by apply split_go_nonempty. by rewrite IH.
    + rewrite IH. by rewrite app_assoc_str.
Qed.

Lemma split_go_no_sep c cur s :
  occurs c cur = false →
  Forall (λ p, occurs c p = false) (split_go (String c "") 0 cur s).
Proof.
  revert cur. induction s as [|x s IH]; intros cur Hcur.
  - by constructor.
  - rewrite split_go_cons. destruct (Ascii.eqb x c) eqn:Hx.
    + constructor; [done|]. by apply IH.
    + apply IH. rewrite occurs_app. simpl. by rewrite Hcur, Hx.
Qed.

(** Every piece is a part of the text. *)
Lemma split_go_inside c cur s p :
  p ∈ split_go (String c "") 0 cur s → ∃ a b, cur +:+ s = a +:+ p +:+ b.
Proof.
  revert cur. induction s as [|x s IH]; intros cur.
  - intros ->%list_elem_of_singleton. exists "", "". by rewrite !app_nil_r_str.
  - rewrite split_go_cons. destruct (Ascii.eqb x c).
    + intros [->|Hin]%elem_of_cons.
      * by exists "", (String x s).
      * apply IH in Hin as (a & b & Hab).
        change ("" +:+ s) with s in Hab. subst s.
        exists (cur +:+ String x a), b. by rewrite !app_assoc_str.
    + intros Hin. apply IH in Hin as (a & b & Hab).
      exists a, b. rewrite <- Hab. by rewrite app_assoc_str.
Qed.

(** *** Occurrences and replacement *)

Lemma Contains_cons c s t :
  Contains (String c s) t = HasPrefix (String c s) t || Contains s t.
Proof. done. Qed.

Lemma Contains_app_l a s t : Contains (a +:+ s) t = false → Contains s t = false.
Proof.
  induction a as [|c a IH]; [done|].
  rewrite app_cons_str, Contains_cons. intros [_ H]%orb_false_iff. by apply IH.
Qed.

Lemma Contains_app_r s b t : Contains (s +:+ b) t = false → Contains s t = false.
Proof.
  induction s as [|c s IH].
  - change ("" +:+ b) with b. destruct t as [|o t]; [by destruct b|done].
  - rewrite app_cons_str, !Contains_cons. intros [Hp Hc]%orb_false_iff.
    rewrite (IH Hc), orb_false_r.
    destruct (HasPrefix (String c s) t) eqn:Hp'; [|done].
    apply (HasPrefix_app_l _ b) in Hp'. rewrite app_cons_str in Hp'. congruence.
Qed.

Lemma Contains_inside a s b t :
  Contains (a +:+ s +:+ b) t = false → Contains s t = false.
Proof. intros H. by apply Contains_app_l, Contains_app_r in H. Qed.

(** Without an occurrence of the pattern nothing is replaced. *)
Lemma replace_go_absent old new s :
  Contains s old = false → replace_go old new 0 s = s.
Proof.
  induction s as [|c s IH]; [done|].
  rewrite Contains_cons. intros [Hp Hc]%orb_false_iff.
  cbn [replace_go]. by rewrite Hp, IH.
Qed.

(** What the replacement starts with, when it is free of the first byte
    [o] of the pattern and of the byte [n] written instead, the text
    started with. *)
Lemma replace_go_prefix o qo n q s :
  occurs o q = false → occurs n q = false →
  HasPrefix (replace_go (String o qo) (String n "") 0 s) q = true →
  HasPrefix s q = true.
Proof.
  revert s. induction q as [|q0 q IH]; intros s Ho Hn; [done|].
  simpl in Ho, Hn.
  apply orb_false_iff in Ho as [Ho0 Ho]. apply orb_false_iff in Hn as [Hn0 Hn].
  destruct s as [|c s]; [done|]. cbn [replace_go].
  destruct (HasPrefix (String c s) (String o qo)) eqn:Hp.
  - change (String n "" +:+ ?x) with (String n x). simpl.
    rewrite eqb_sym, Hn0. done.
  - simpl. destruct (Ascii.eqb c q0); [by apply IH|done].
Qed.

(** Replacing a tag by a newline leaves no occurrence of that tag, and
    brings in no occurrence of a tag that was not there. *)
Lemma replace_go_no_tag o qo qt n k s :
  occurs o qt = false → occurs n qt = false → Ascii.eqb n o = false →
  qt = qo ∨ Contains s (String o qt) = false →
  Contains (replace_go (String o qo) (String n "") k s) (String o qt) = false.
Proof.
  intros Ho Hn Hno. revert k. induction s as [|c s IH]; intros k Hs.
  - by destruct k.
  - assert (qt = qo ∨ Contains s (String o qt) = false) as Hs'.
    { destruct Hs as [?|Hs]; [by left|right].
      rewrite Contains_cons in Hs. by apply orb_false_iff in Hs as [_ ?]. }
    destruct k as [|k]; [|by apply IH].
    cbn [replace_go].
    destruct (HasPrefix (String c s) (String o qo)) eqn:Hp.
    + change (String n "" +:+ ?x) with (String n x).
      rewrite Contains_cons, (IH _ Hs'), orb_false_r. simpl. by rewrite Hno.
    + rewrite Contains_cons, (IH _ Hs'), orb_false_r.
      destruct (HasPrefix (String c (replace_go (String o qo) (String n "") 0 s))
                  (String o qt)) eqn:Hp'; [|done].
      simpl in Hp'. destruct (Ascii.eqb c o) eqn:Hc; [|done].
      apply replace_go_prefix in Hp'; [|done..].
      assert (HasPrefix (String c s) (String o qt) = true) as Hp''
        by (simpl; by rewrite Hc).
      destruct Hs as [->|Hs]; [congruence|].
      rewrite Contains_cons, Hp'' in Hs. done.
Qed.

Lemma normalize_no_tag desc t :
  t ∈ break_tags → Contains (normalize desc) t = false.
Proof.
  intros Ht. unfold normalize, ReplaceAll, nl.
  each_tag Ht.
  - do 2 (apply replace_go_no_tag; [done..|right]).
    apply replace_go_no_tag; [done..|by left].
  - apply replace_go_no_tag; [done..|right].
    apply replace_go_no_tag; [done..|by left].
  - apply replace_go_no_tag; [done..|by left].
Qed.

(** ** More on the extractor *)

Lemma classify_Prize_iff l : classify l = Prize ↔ isPrize (TrimSpace l) = true.
Proof.
  split; [by intros [? _]%classify_Prize|].
  intros Hp. unfold classify.
  rewrite (isPrize_not_Location _ Hp), Hp.
  destruct (decide (TrimSpace l = "")) as [He|]; [|done].
  by rewrite He in Hp.
Qed.

Lemma located_prizes_lines cur lines :
  (located_prizes cur lines).*2 =
  filter (λ p, isPrize p = true) (TrimSpace <$> lines).
Proof.
  revert cur. induction lines as [|l ls IH]; intros cur; [done|].
  rewrite fmap_cons, filter_cons. simpl.
  destruct (classify l) eqn:Hc.
  - rewrite decide_False; [apply IH|]. rewrite <- classify_Prize_iff. congruence.
  - rewrite decide_False; [apply IH|]. rewrite <- classify_Prize_iff. congruence.
  - rewrite decide_True by (by apply classify_Prize_iff). simpl. by rewrite IH.
  - rewrite decide_False; [apply IH|]. rewrite <- classify_Prize_iff. congruence.
Qed.

Lemma values_insert (m : gmap string (list string)) k x :
  concat (map_to_list (<[k:=x]> m)).*2 ≡ₚ x ++ concat (map_to_list (delete k m)).*2.
Proof.
  rewrite <- insert_delete_eq.
  by rewrite map_to_list_insert by apply lookup_delete_eq.
Qed.

Lemma values_lookup (m : gmap string (list string)) k :
  concat (map_to_list m).*2 ≡ₚ
  default [] (m !! k) ++ concat (map_to_list (delete k m)).*2.
Proof.
  destruct (m !! k) as [x|] eqn:Hk; simpl.
  - rewrite <- (insert_delete_id m k x Hk) at 1.
    by rewrite map_to_list_insert by apply lookup_delete_eq.
  - by rewrite delete_id.
Qed.

(** Every prize line goes to one entry of the table. *)
Lemma parse_lines_values lines m cur :
  concat (map_to_list (parse_lines (m, cur) lines).1).*2 ≡ₚ
  concat (map_to_list m).*2 ++ (located_prizes cur lines).*2.
Proof.
  revert m cur. induction lines as [|l ls IH]; intros m cur.
  { simpl. by rewrite app_nil_r. }
  change (parse_lines (m, cur) (l :: ls))
    with (parse_lines (parse_line (m, cur) l) ls).
  rewrite parse_line_classify. simpl.
  destruct (classify l); rewrite IH; try done.
  rewrite values_insert, (values_lookup m cur).
  rewrite fmap_cons. cbn [snd].
  rewrite <- !app_assoc. apply Permutation_app_head.
  cbn [app]. apply Permutation_middle.
Qed.

(** *** X1 *)

(** X1: in a table, a key is the empty string or a location line
    (it starts with a bracket and has a closing one), and a value is a
    non-empty list of lines that start with [G.]. *)
Theorem parseDescription_table_shape desc k v :
  parseDescription desc !! k = Some v →
  (k = "" ∨ isLocation k = true) ∧ v ≠ [] ∧ Forall (λ p, isPrize p = true) v.
Proof.
  intros Hv. pose proof (parseDescription_values_nonempty _ _ _ Hv) as Hne.
  rewrite parseDescription_lookup in Hv.
  assert (v = prizes_under k (located_prizes "" (desc_lines desc))) as ->.
  { destruct (prizes_under _ _); by simplify_eq. }
  assert (∀ p, p ∈ prizes_under k (located_prizes "" (desc_lines desc)) →
               (k = "" ∨ isLocation k = true) ∧ isPrize p = true) as Hall.
  { intros p Hp.
    apply prizes_under_elem, located_prizes_elem
      in Hp as [[->|(l & _ & Hl & ->)] (l' & _ & Hl' & ->)].
    - split; [by left|]. by apply classify_Prize in Hl' as [? _].
    - split; [right; by apply classify_Location|].
      by apply classify_Prize in Hl' as [? _]. }
  split; [|split; [done|]].
  - destruct (prizes_under _ _) as [|p ps]; [done|].
    apply (Hall p). by left.
  - apply Forall_forall. intros p Hp. by apply Hall.
Qed.

Lemma parseDescription_table_shape_witness :
  ("[B]" = "" ∨ isLocation "[B]" = true) ∧ ["G.3: z"] ≠ [] ∧
  Forall (λ p, isPrize p = true) ["G.3: z"].
Proof.
  apply (parseDescription_table_shape order_example "[B]" ["G.3: z"]).
  reflexivity.
Defined.

(** *** X2 *)

(** X2: nothing is lost and nothing comes twice: whatever the order in
    which the table is enumerated, its values put end to end are, up to
    order, the trimmed lines of the text that start with [G.], each as
    many times as it occurs. *)
Theorem parseDescription_keeps_every_prize desc locs :
  range_order (parseDescription desc) locs →
  concat locs.*2 ≡ₚ
  filter (λ p, isPrize p = true) (TrimSpace <$> desc_lines desc).
Proof.
  unfold range_order, parseDescription. intros ->.
  rewrite parse_lines_values, map_to_list_empty. simpl.
  by rewrite located_prizes_lines.
Qed.

Lemma parseDescription_keeps_every_prize_witness :
  concat [("[B]", ["G.3: z"]); ("[A]", ["G.1: x"; "G.2: y"])].*2 ≡ₚ
  filter (λ p, isPrize p = true) (TrimSpace <$> desc_lines order_example).
Proof.
  apply (parseDescription_keeps_every_prize order_example).
  unfold range_order.
  assert (map_to_list (parseDescription order_example) =
          [("[A]", ["G.1: x"; "G.2: y"]); ("[B]", ["G.3: z"])]) as ->
    by (vm_compute; reflexivity).
  apply Permutation_swap.
Defined.

(** *** X3 *)

Lemma desc_lines_inside desc l :
  l ∈ desc_lines desc → ∃ a b, normalize desc = a +:+ l +:+ b.
Proof.
  unfold desc_lines, Split, nl. intros Hin.
  by apply split_go_inside in Hin.
Qed.

Lemma desc_lines_no_newline desc :
  Forall (λ l, occurs (ascii_of_N 10) l = false) (desc_lines desc).
Proof. unfold desc_lines, Split, nl. by apply split_go_no_sep. Qed.

Lemma trimmed_line_clean desc l :
  l ∈ desc_lines desc →
  TrimSpace (TrimSpace l) = TrimSpace l ∧
  occurs (ascii_of_N 10) (TrimSpace l) = false ∧
  (∀ t, t ∈ break_tags → Contains (TrimSpace l) t = false).
Proof.
  intros Hin. split; [apply TrimSpace_idempotent|]. split.
  - pose proof (desc_lines_no_newline desc) as Hall.
    rewrite Forall_forall in Hall. specialize (Hall l Hin).
    destruct (TrimSpace_inside l) as (a & b & Hl).
    rewrite Hl, !occurs_app in Hall.
    apply orb_false_iff in Hall as [_ Hall].
    by apply orb_false_iff in Hall as [? _].
  - intros t Ht.
    destruct (desc_lines_inside desc l Hin) as (a & b & Hn).
    destruct (TrimSpace_inside l) as (a' & b' & Hl).
    pose proof (normalize_no_tag desc t Ht) as Hc.
    rewrite Hn in Hc. apply Contains_inside in Hc.
    rewrite Hl in Hc. by apply Contains_inside in Hc.
Qed.

(** X3: what the table holds is clean: a key other than the empty
    string and every prize line is left unchanged by [TrimSpace] (no
    white space at either end), holds no newline and none of the tags
    [<br>], [<br/>], [<br />]. *)
Theorem parseDescription_lines_clean desc k v :
  parseDescription desc !! k = Some v →
  Forall (λ p, TrimSpace p = p ∧ occurs (ascii_of_N 10) p = false ∧
               ∀ t, t ∈ break_tags → Contains p t = false) (k :: v).
Proof.
  intros Hv. rewrite parseDescription_lookup in Hv.
  assert (v = prizes_under k (located_prizes "" (desc_lines desc))) as Heq.
  { destruct (prizes_under _ _); by simplify_eq. }
  assert (v ≠ []) as Hne by (destruct (prizes_under _ _); by simplify_eq).
  subst v.
  assert (∀ p, p ∈ prizes_under k (located_prizes "" (desc_lines desc)) →
               (k = "" ∨ ∃ l, l ∈ desc_lines desc ∧ k = TrimSpace l) ∧
               ∃ l, l ∈ desc_lines desc ∧ p = TrimSpace l) as Hall.
  { intros p Hp.
    apply prizes_under_elem, located_prizes_elem
      in Hp as [[->|(l & ? & _ & ->)] (l' & ? & _ & ->)]; split; eauto. }
  constructor.
  - destruct (prizes_under _ _) as [|p ps]; [done|].
    destruct (Hall p ltac:(by left)) as [[->|(l & Hl & ->)] _].
    + split; [done|split; [done|]]. intros t Ht. by each_tag Ht.
    + by apply (trimmed_line_clean desc).
  - apply Forall_forall. intros p Hp.
    destruct (Hall p Hp) as [_ (l & Hl & ->)].
    by apply (trimmed_line_clean desc).
Qed.

Lemma parseDescription_lines_clean_witness :
  Forall (λ p, TrimSpace p = p ∧ occurs (ascii_of_N 10) p = false ∧
               ∀ t, t ∈ break_tags → Contains p t = false)
    ["[A]"; "G.1: a"; "G.2: b"].
Proof.
  apply (parseDescription_lines_clean
           ("  [A] <br>" +:+ nl +:+ " G.1: a " +:+ nl +:+ "<br/>G.2: b<br />")
           "[A]" ["G.1: a"; "G.2: b"]).
  reflexivity.
Defined.

(** *** Breaks, newlines and lines *)

Lemma normalize_newline s r :
  normalize (s +:+ nl +:+ r) = normalize s +:+ nl +:+ normalize r.
Proof.
  unfold normalize, ReplaceAll.
  assert ("<br>" ∈ break_tags ∧ "<br/>" ∈ break_tags ∧ "<br />" ∈ break_tags)
    as (H1 & H2 & H3) by (unfold break_tags; rewrite !elem_of_cons; auto 10).
  assert (nl ∈ nl :: break_tags) as Hnl by (by left).
  rewrite (replace_go_through_sep "<br>" nl) by done. eval_replaced.
  rewrite (replace_go_through_sep "<br/>" nl) by done. eval_replaced.
  by rewrite (replace_go_through_sep "<br />" nl) by done.
Qed.

Lemma desc_lines_app d1 sep d2 :
  sep ∈ nl :: break_tags →
  desc_lines (d1 +:+ sep +:+ d2) = desc_lines d1 ++ desc_lines d2.
Proof.
  intros Hsep. unfold desc_lines.
  assert (normalize (d1 +:+ sep +:+ d2) = normalize d1 +:+ nl +:+ normalize d2) as ->.
  { apply elem_of_cons in Hsep as [->|Hsep];
      [apply normalize_newline|by apply normalize_break]. }
  unfold Split, nl. rewrite app_cons_str. apply split_go_app.
Qed.

(** X4: one of the tags [<br>], [<br/>], [<br />] and a newline are
    interchangeable: the table does not tell which of them stood
    between two parts of the text. *)
Theorem parseDescription_break_is_newline s t r :
  t ∈ break_tags →
  parseDescription (s +:+ t +:+ r) = parseDescription (s +:+ nl +:+ r).
Proof.
  intros Ht. unfold parseDescription.
  rewrite !desc_lines_app; [done|by left|by right].
Qed.

Lemma parseDescription_break_is_newline_witness :
  parseDescription ("[A]" +:+ "<br/>" +:+ "G.1: x") =
  parseDescription ("[A]" +:+ nl +:+ "G.1: x").
Proof.
  apply parseDescription_break_is_newline. by right; left.
Defined.

Lemma parseDescription_app_lookup d1 sep d2 k :
  sep ∈ nl :: break_tags →
  parseDescription (d1 +:+ sep +:+ d2) !! k =
  match prizes_under k
          (located_prizes (parse_lines (∅, "") (desc_lines d1)).2 (desc_lines d2)) with
  | [] => parseDescription d1 !! k
  | new => Some (default [] (parseDescription d1 !! k) ++ new)
  end.
Proof.
  intros Hsep. unfold parseDescription.
  rewrite desc_lines_app, parse_lines_app by done.
  destruct (parse_lines (∅, "") (desc_lines d1)) as [m1 c1].
  apply parse_lines_lookup.
Qed.

(** X5: tables add up.  When a text is a first part, a break (a newline
    or one of the three tags) and a second part whose first line is a
    location line, each location holds the prize lines it has in the
    first part followed by those it has in the second: a location that
    comes back later goes on with the same entry. *)
Theorem parseDescription_app d1 sep d2 l ls k :
  sep ∈ nl :: break_tags →
  desc_lines d2 = l :: ls →
  classify l = Location →
  default [] (parseDescription (d1 +:+ sep +:+ d2) !! k) =
  default [] (parseDescription d1 !! k) ++ default [] (parseDescription d2 !! k).
Proof.
  intros Hsep Hd2 Hl.
  rewrite parseDescription_app_lookup, (parseDescription_lookup d2) by done.
  rewrite Hd2. cbn [located_prizes]. rewrite Hl.
  destruct (prizes_under k (located_prizes (TrimSpace l) ls)).
  - cbn [default]. by rewrite app_nil_r.
  - done.
Qed.

Lemma parseDescription_app_witness :
  default [] (parseDescription
                (("[A]<br>G.1: a<br>[B]<br>G.2: b") +:+ "<br>" +:+
                 ("[A]<br>G.3: c")) !! "[A]") =
  ["G.1: a"] ++ ["G.3: c"].
Proof.
  apply (parseDescription_app "[A]<br>G.1: a<br>[B]<br>G.2: b" "<br>"
           "[A]<br>G.3: c" "[A]" ["G.3: c"] "[A]").
  - by right; left.
  - reflexivity.
  - reflexivity.
Defined.

(** X6: cutting into lines loses nothing: the lines joined by newlines
    are the text in which each tag has become a newline, and the very
    text when it holds none of the three tags. *)
Theorem desc_lines_join desc :
  join_lines nl (desc_lines desc) = normalize desc ∧
  ((∀ t, t ∈ break_tags → Contains desc t = false) →
   join_lines nl (desc_lines desc) = desc).
Proof.
  assert (join_lines nl (desc_lines desc) = normalize desc) as Hj.
  { unfold desc_lines, Split, nl. by rewrite split_go_join. }
  split; [done|]. intros Hno. rewrite Hj.
  unfold normalize, ReplaceAll.
  rewrite (replace_go_absent "<br>") by (apply Hno; by left).
  rewrite (replace_go_absent "<br/>") by (apply Hno; by right; left).
  by rewrite (replace_go_absent "<br />") by (apply Hno; by do 2 right; left).
Qed.

Lemma desc_lines_join_witness :
  join_lines nl (desc_lines ("[A]" +:+ nl +:+ "G.1: x <BR>" +:+ nl)) =
  "[A]" +:+ nl +:+ "G.1: x <BR>" +:+ nl.
Proof.
  apply (proj2 (desc_lines_join ("[A]" +:+ nl +:+ "G.1: x <BR>" +:+ nl))).
  intros t Ht. by each_tag Ht.
Defined.

(** X7: once the tags are replaced none of them is left, and replacing
    them again changes nothing. *)
Theorem normalize_idempotent desc :
  (∀ t, t ∈ break_tags → Contains (normalize desc) t = false) ∧
  normalize (normalize desc) = normalize desc.
Proof.
  split; [intros t; apply normalize_no_tag|].
  unfold normalize at 1. unfold ReplaceAll.
  rewrite (replace_go_absent "<br>") by (apply normalize_no_tag; by left).
  rewrite (replace_go_absent "<br/>") by (apply normalize_no_tag; by right; left).
  by rewrite (replace_go_absent "<br />")
    by (apply normalize_no_tag; by do 2 right; left).
Qed.

Lemma normalize_idempotent_witness :
  Contains (normalize "a<br<br>/>b<<br />br>") "<br/>" = false.
Proof.
  apply (proj1 (normalize_idempotent "a<br<br>/>b<<br />br>")). by right; left.
Defined.

(** ** More on the run *)

Lemma gets_render_prizes st ps :
  filter is_get (trace (foldl render_prize st ps)) = filter is_get (trace st).
Proof.
  revert st. induction ps as [|p ps IH]; intros st; [done|].
  simpl. rewrite IH. simpl. by rewrite filter_app, app_nil_r.
Qed.

Lemma gets_render_locations st locs :
  filter is_get (trace (foldl render_location st locs)) = filter is_get (trace st).
Proof.
  revert st. induction locs as [|[loc prizes] locs IH]; intros st; [done|].
  simpl. rewrite IH. simpl. rewrite filter_app, app_nil_r, gets_render_prizes.
  destruct (decide (loc ≠ "")); simpl; by rewrite ?filter_app, ?app_nil_r.
Qed.

Lemma visit_source_gets w src st st' :
  visit_source w src st st' →
  filter is_get (trace st') = filter is_get (trace st) ++ [HttpGet src.2].
Proof.
  destruct 1; simpl.
  - by rewrite !filter_app, app_nil_r.
  - by rewrite !filter_app, app_nil_r.
  - rewrite gets_render_locations. simpl. by rewrite !filter_app, app_nil_r.
Qed.

Lemma visit_all_gets w order st st' :
  visit_all w order st st' →
  filter is_get (trace st') = filter is_get (trace st) ++ (HttpGet <$> order.*2).
Proof.
  induction 1 as [st|src srcs st st' st'' Hs _ IH].
  - simpl. by rewrite app_nil_r.
  - rewrite IH, (visit_source_gets _ _ _ _ Hs). simpl. by rewrite <- app_assoc.
Qed.

(** X8: a run asks for each of the three feeds once, whatever the
    earlier ones gave (an error or an empty feed does not end the loop
    and is not tried again), and the request to the notification
    endpoint comes after all of them, followed only by the line that
    tells its outcome. *)
Theorem runJob_fetches_each_source_once w tr :
  runJob w tr →
  filter is_get tr ≡ₚ [HttpGet north.2; HttpGet centre.2; HttpGet south.2] ∧
  ∃ pre msg,
    tr = pre ++ [HttpPost (telegram_url w) form_type (telegram_payload w msg);
                 report_sent (sendToTelegram w msg).2] ∧
    filter is_post pre = [] ∧
    filter is_get pre = filter is_get tr.
Proof.
  intros (st & (order & Horder & Hv) & ->). split.
  - rewrite filter_app, (visit_all_gets _ _ _ _ Hv). simpl.
    assert (filter is_get
              [(sendToTelegram w (finalMessage st)).1;
               report_sent (sendToTelegram w (finalMessage st)).2] = []) as ->.
    { unfold sendToTelegram, report_sent.
      by destruct (http_Post _ _ _ _). }
    rewrite app_nil_r.
    unfold range_order in Horder. rewrite Horder, <- range_order_north_first.
    done.
  - exists (trace st), (finalMessage st). split; [|split].
    + do 2 f_equal. unfold sendToTelegram. by destruct (http_Post _ _ _ _).
    + by rewrite (visit_all_posts _ _ _ _ Hv).
    + rewrite filter_app.
      assert (filter is_get
                [(sendToTelegram w (finalMessage st)).1;
                 report_sent (sendToTelegram w (finalMessage st)).2] = []) as ->.
      { unfold sendToTelegram, report_sent.
        by destruct (http_Post _ _ _ _). }
      by rewrite app_nil_r.
Qed.

Lemma runJob_fetches_each_source_once_witness :
  filter is_get (runJob_with world_north_only map_to_list south_first) ≡ₚ
  [HttpGet north.2; HttpGet centre.2; HttpGet south.2].
Proof.
  apply (runJob_fetches_each_source_once world_north_only).
  apply runJob_with_sound; [apply range_order_exists|apply range_order_south_first].
Defined.

Lemma first_item_None w url :
  first_item w url = None →
  (∃ err, fetchRSS w url = inl err) ∨
  (∃ rss, fetchRSS w url = inr rss ∧ Items (Channel rss) = []).
Proof.
  unfold first_item. destruct (fetchRSS w url) as [err|rss]; [by eauto|].
  destruct (Items (Channel rss)) eqn:Hi; [by eauto|done].
Qed.

Lemma first_item_Some w url title desc :
  first_item w url = Some (title, desc) →
  ∃ rss it rest, fetchRSS w url = inr rss ∧ Items (Channel rss) = it :: rest ∧
                 Title it = title ∧ Description it = desc.
Proof.
  unfold first_item. destruct (fetchRSS w url) as [err|rss]; [done|].
  destruct (Items (Channel rss)) as [|it rest] eqn:Hi; [done|].
  intros [= <- <-]. by exists rss, it, rest.
Qed.

Lemma visit_all_first_items w1 w2 order st1 st2 st1' :
  Forall (λ src, first_item w1 src.2 = first_item w2 src.2) order →
  visit_all w1 order st1 st2 →
  finalMessage st1' = finalMessage st1 →
  ∃ st2', visit_all w2 order st1' st2' ∧ finalMessage st2' = finalMessage st2.
Proof.
  intros Hall Hv. revert st1' Hall.
  induction Hv as [st|src srcs st st' st'' Hs _ IH]; intros st1' Hall Hm.
  { exists st1'. split; [constructor|done]. }
  inversion_clear Hall as [|?? Hsrc Hrest].
  destruct Hs as [region url err st Hf|region url rss st Hf Hi
                 |region url rss it rest locs st Hf Hi Hl]; simpl in Hsrc.
  - assert (first_item w2 url = None) as Hnone
      by (rewrite <- Hsrc; unfold first_item; by rewrite Hf).
    apply first_item_None in Hnone as [[err' Hf']|(rss' & Hf' & Hi')].
    + destruct (IH (Println ("Error fetching: " +:+ err') (emit (HttpGet url) st1')))
        as (st2' & Hv' & Hm'); [done|done|].
      exists st2'. split; [|done].
      econstructor; [|exact Hv']. by apply visit_fetch_error.
    + destruct (IH (Println ("No items found for " +:+ region) (emit (HttpGet url) st1')))
        as (st2' & Hv' & Hm'); [done|done|].
      exists st2'. split; [|done].
      econstructor; [|exact Hv']. by eapply visit_no_items.
  - assert (first_item w2 url = None) as Hnone
      by (rewrite <- Hsrc; unfold first_item; by rewrite Hf, Hi).
    apply first_item_None in Hnone as [[err' Hf']|(rss' & Hf' & Hi')].
    + destruct (IH (Println ("Error fetching: " +:+ err') (emit (HttpGet url) st1')))
        as (st2' & Hv' & Hm'); [done|done|].
      exists st2'. split; [|done].
      econstructor; [|exact Hv']. by apply visit_fetch_error.
    + destruct (IH (Println ("No items found for " +:+ region) (emit (HttpGet url) st1')))
        as (st2' & Hv' & Hm'); [done|done|].
      exists st2'. split; [|done].
      econstructor; [|exact Hv']. by eapply visit_no_items.
  - assert (first_item w2 url = Some (Title it, Description it)) as Hsome
      by (rewrite <- Hsrc; unfold first_item; by rewrite Hf, Hi).
    apply first_item_Some in Hsome as (rss' & it' & rest' & Hf' & Hi' & Ht & Hd).
    destruct (IH (foldl render_location
                    (WriteString (headline region (Title it'))
                       (emit (Stdout ("=== " +:+ region +:+ " | " +:+ Title it' +:+ " ===" +:+ nl))
                          (emit (HttpGet url) st1')))
                    locs)) as (st2' & Hv' & Hm'); [done| |].
    { rewrite !finalMessage_render_locations. simpl. by rewrite Hm, Ht. }
    exists st2'. split; [|done].
    econstructor; [|exact Hv'].
    eapply visit_first_item; [done..|]. by rewrite Hd.
Qed.

(** X9: of a feed the report uses the title and the description of the
    first item and nothing else.  Two worlds in which every source gives
    the same first title and description, or gives none (the fetch
    fails, in whatever way, or the feed is empty), build the same
    messages: the status code of the response, the publication date, the
    items after the first and the kind of failure do not show. *)
Theorem report_reads_first_item_only w1 w2 sources st1 :
  (∀ region url, sources !! region = Some url →
                 first_item w1 url = first_item w2 url) →
  build_report w1 sources st1 →
  ∃ st2, build_report w2 sources st2 ∧ finalMessage st2 = finalMessage st1.
Proof.
  intros Hsame (order & Horder & Hv).
  destruct (visit_all_first_items w1 w2 order
              (WriteString report_header {| finalMessage := ""; trace := [] |}) st1
              (WriteString report_header {| finalMessage := ""; trace := [] |}))
    as (st2 & Hv2 & Hm); [|exact Hv|done|].
  - apply Forall_forall. intros [region url] Hin. simpl.
    apply (Hsame region). apply elem_of_map_to_list.
    unfold range_order in Horder. by rewrite <- Horder.
  - exists st2. split; [|done]. by exists order.
Qed.

(** A world like [world_north_only] where the northern feed has a second
    item and a date, the other feeds are empty and the endpoint rejects
    the request. *)
Lemma report_reads_first_item_only_witness :
  ∃ st2,
    build_report
      {| telegramBotToken := "U";
         telegramChatID := "7";
         http_Get := λ url, inr {| StatusCode := 404; Body := url; ReadErr := None |};
         http_Post := λ _ _ _, inl "connection refused";
         xml_Unmarshal := λ data,
           if decide (data = "https://xosodaiphat.com/ket-qua-xo-so-mien-bac-xsmb.rss")
           then inr {| Channel := {| Items :=
                  [ {| Title := "XSMB"; Description := "[A]<br>G.1: 1";
                       PubDate := "Mon, 02 Nov 2026" |};
                    {| Title := "old"; Description := "G.9: 9"; PubDate := "" |} ] |} |}
           else inr {| Channel := {| Items := [] |} |} |}
      rssURLs st2 ∧
    finalMessage st2 =
      finalMessage (build_report_with world_north_only map_to_list north_first).
Proof.
  apply (report_reads_first_item_only world_north_only).
  - intros region url Hsrc.
    assert ((region, url) ∈ north_first) as Hin.
    { pose proof range_order_north_first as Ho. unfold range_order in Ho.
      rewrite Ho. by apply elem_of_map_to_list. }
    unfold north_first in Hin. rewrite !elem_of_cons, elem_of_nil in Hin.
    destruct Hin as [[= -> ->]|[[= -> ->]|[[= -> ->]|[]]]]; reflexivity.
  - apply build_report_with_sound;
      [apply range_order_exists|apply range_order_north_first].
Defined.



(** ** The body of the request, read back *)

Lemma split_go_none c cur s :
  occurs c s = false → split_go (String c "") 0 cur s = [cur +:+ s].
Proof.
  revert cur. induction s as [|x s IH]; intros cur Hs.
  - simpl. by rewrite app_nil_r_str.
  - simpl in Hs. apply orb_false_iff in Hs as [Hx Hs].
    rewrite split_go_cons, Hx, IH by done. by rewrite app_assoc_str.
Qed.

Lemma cut_at_eq_first a b :
  occurs "=" a = false → cut_at_eq (a +:+ String "=" b) = (a, b).
Proof.
  induction a as [|x a IH]; intros Ha; [done|].
  simpl in Ha. apply orb_false_iff in Ha as [Hx Ha].
  rewrite app_cons_str. simpl. by rewrite Hx, IH.
Qed.

Lemma percent_decode_plain s :
  occurs "+" s = false → occurs "%" s = false → percent_decode s = s.
Proof.
  induction s as [|c s IH]; intros Hp Hq; [done|].
  simpl in Hp, Hq.
  apply orb_false_iff in Hp as [Hp0 Hp]. apply orb_false_iff in Hq as [Hq0 Hq].
  cbn [percent_decode]. by rewrite Hq0, Hp0, IH.
Qed.

(** X11: the body of the request reads back as the two fields [chat_id]
    and [text], the latter holding the whole message, when neither the
    destination nor the message holds one of the bytes [&], [+], [%]
    (the message may hold [=], spaces, newlines and bytes beyond
    ASCII). *)
Theorem telegram_payload_reads_back w message :
  occurs "&" (telegramChatID w) = false →
  occurs "+" (telegramChatID w) = false →
  occurs "%" (telegramChatID w) = false →
  occurs "&" message = false →
  occurs "+" message = false →
  occurs "%" message = false →
  form_decode (telegram_payload w message) =
    [("chat_id", telegramChatID w); ("text", message)].
Proof.
  intros Hc1 Hc2 Hc3 Hm1 Hm2 Hm3. unfold telegram_payload, form_decode, Split.
  assert ("chat_id=" +:+ telegramChatID w +:+ "&text=" +:+ message =
          ("chat_id=" +:+ telegramChatID w) +:+ String "&" ("text=" +:+ message)) as ->
    by (by rewrite app_assoc_str).
  rewrite split_go_app.
  rewrite !split_go_none by (by rewrite occurs_app; simpl; rewrite ?Hc1, ?Hm1).
  change ("" +:+ ?x) with x. simpl app.
  rewrite !filter_cons, filter_nil.
  rewrite !decide_True by done.
  rewrite !fmap_cons, fmap_nil.
  change ("chat_id=" +:+ telegramChatID w)
    with ("chat_id" +:+ String "=" (telegramChatID w)).
  change ("text=" +:+ message) with ("text" +:+ String "=" message).
  rewrite !cut_at_eq_first by done.
  by rewrite !percent_decode_plain by done.
Qed.

Lemma telegram_payload_reads_back_witness :
  form_decode (telegram_payload world_offline report_header) =
    [("chat_id", "42"); ("text", report_header)].
Proof.
  apply (telegram_payload_reads_back world_offline report_header); reflexivity.
Defined.

(** ** The process *)

Section Quiet.

(** A kind of event that printing is not of. *)
Variable f : event → bool.
Hypothesis f_Stdout : ∀ text, f (Stdout text) = false.





End Quiet.



Lemma init_fails_iff environ dotenv :
  (init environ dotenv).2 = None ↔
  Getenv (godotenv_Load environ dotenv).1 "TELEGRAM_TOKEN" = "" ∨
  Getenv (godotenv_Load environ dotenv).1 "TELEGRAM_TO" = "".
Proof.
  unfold init. destruct (godotenv_Load environ dotenv) as [env err]. simpl.
  destruct (decide _) as [H|H]; simpl; [done|]. split; [done|]. by intros ?.
Qed.

Lemma init_prints_only environ dotenv :
  Forall (λ e, ∃ text, e = Stdout text) (init environ dotenv).1.
Proof.
  unfold init. destruct (godotenv_Load environ dotenv) as [env [err|]];
    destruct (decide _); simpl; repeat constructor; eauto.
Qed.




(** X13: when, once [.env] is loaded, [TELEGRAM_TOKEN] or [TELEGRAM_TO]
    is unset or empty, the process exits with status 1 having only
    printed: it asks for no feed, sends nothing and registers nothing,
    with the flag [-now] as without. *)
Theorem process_without_config environ dotenv w s runNow tr e :
  Getenv (godotenv_Load environ dotenv).1 "TELEGRAM_TOKEN" = "" ∨
  Getenv (godotenv_Load environ dotenv).1 "TELEGRAM_TO" = "" →
  process environ dotenv w s runNow tr e →
  e = Exit 1 ∧ Forall (λ ev, ∃ text, ev = Did (Stdout text)) tr.
Proof.
  intros Hmiss%init_fails_iff Hp.
  destruct Hp as [_|token chat tr e Hsome _]; [|congruence].
  split; [done|]. apply Forall_fmap.
  eapply Forall_impl; [apply init_prints_only|].
  intros ev [text ->]. by exists text.
Qed.

Lemma process_without_config_witness :
  Exit 1 = Exit 1 ∧
  Forall (λ ev, ∃ text, ev = Did (Stdout text))
    (Did <$> (init environ_no_chat (inl "open .env: no such file or directory")).1).
Proof.
  apply (process_without_config environ_no_chat
           (inl "open .env: no such file or directory")
           world_online scheduler_ok true).
  - by right.
  - by apply process_no_config.
Defined.



(** X15: without the flag [-now] the process starts no run: it asks for
    no feed and sends nothing.  Either the time zone or the schedule is
    refused, and it exits with status 1 having only printed; or it
    registers [runJob] once, for 18:30 every day in the zone
    [Asia/Ho_Chi_Minh], starts the scheduler and waits. *)
Theorem process_scheduled environ dotenv w s tr e :
  process environ dotenv w s false tr e →
  filter is_network tr = [] ∧
  ((e = Exit 1 ∧ Forall (λ ev, ∃ text, ev = Did (Stdout text)) tr) ∨
   (e = Waits ∧
    ∃ loc pre text,
      LoadLocation s "Asia/Ho_Chi_Minh" = inr loc ∧
      AddFunc s "30 18 * * *" = None ∧
      tr = pre ++ [Registered "30 18 * * *" loc; Did (Stdout text); Started] ∧
      Forall (λ ev, ∃ text', ev = Did (Stdout text')) pre)).
Proof.
  intros Hp.
  assert (Forall (λ ev, ∃ text, ev = Did (Stdout text))
            (Did <$> (init environ dotenv).1)) as Hinit.
  { apply Forall_fmap. eapply Forall_impl; [apply init_prints_only|].
    intros ev [text ->]. by exists text. }
  assert (∀ l, Forall (λ ev, ∃ text, ev = Did (Stdout text)) l →
               filter is_network l = []) as Hquiet.
  { induction 1 as [|x l [text ->] _ IH]; [done|].
    by rewrite filter_cons, decide_False by (simpl; auto). }
  destruct Hp as [_|token chat tr e _ Hmain].
  { split; [by apply Hquiet|]. by left. }
  inversion Hmain as [|err Hloc|loc err Hloc Hadd|loc Hloc Hadd]; subst.
  - split; [|left; split; [done|]].
    + rewrite filter_app, (Hquiet _ Hinit). done.
    + apply Forall_app. split; [done|]. repeat constructor. by eexists.
  - split; [|left; split; [done|]].
    + rewrite filter_app, (Hquiet _ Hinit). done.
    + apply Forall_app. split; [done|]. repeat constructor. by eexists.
  - split.
    + rewrite filter_app, (Hquiet _ Hinit). done.
    + right. split; [done|]. by eexists loc, _, _.
Qed.

Lemma process_scheduled_witness :
  filter is_network
    ((Did <$> (init environ_ok (inr ∅)).1) ++
     [Registered "30 18 * * *" "Asia/Ho_Chi_Minh";
      Did (Stdout ("⏰ Scheduler started... Waiting for 18:30 Asia/Ho_Chi_Minh" +:+ nl));
      Started]) = [].
Proof.
  apply (process_scheduled environ_ok (inr ∅) world_online scheduler_ok _ Waits).
  apply (process_main _ _ _ _ _ "T" "42"); [reflexivity|].
  by apply main_scheduled.
Defined.

(** ** Lines that end with a carriage return *)

Lemma leading_width_app_stop ws c s b :
  Forall (λ w, match w with "" => True | String _ q => occurs b q = false end) ws →
  leading_width ws (String c s +:+ String b "") = leading_width ws (String c s).
Proof.
  induction 1 as [|w ws Hw _ IH]; [done|]. cbn [leading_width].
  destruct w as [|o q].
  - done.
  - rewrite (HasPrefix_cons_app_stop o q c s b "" Hw). by rewrite IH.
Qed.

Lemma leading_width_length ws s k :
  leading_width ws s = S k → S k ≤ String.length s.
Proof.
  induction ws as [|w ws IH]; [done|]. simpl.
  destruct (HasPrefix s w) eqn:Hp; [|done].
  intros <-. by apply HasPrefix_length.
Qed.

(** Trimming on the left of a text followed by a byte that no encoding
    of a space holds after its first byte. *)
Lemma trim_go_app_stop ws b s k :
  Forall (λ w, match w with "" => True | String _ q => occurs b q = false end) ws →
  k ≤ String.length s →
  trim_go ws k (s +:+ String b "") =
  if decide (trim_go ws k s = "") then trim_go ws 0 (String b "")
  else trim_go ws k s +:+ String b "".
Proof.
  intros Hws. revert k. induction s as [|c s IH]; intros k Hk.
  - simpl in Hk. assert (k = 0) as -> by lia. done.
  - rewrite app_cons_str. destruct k as [|k].
    + cbn [trim_go]. rewrite <- app_cons_str, leading_width_app_stop by done.
      destruct (leading_width ws (String c s)) as [|n] eqn:Hw.
      * by rewrite decide_False.
      * apply leading_width_length in Hw. simpl in Hw. apply IH. lia.
    + cbn [trim_go]. apply IH. simpl in Hk. lia.
Qed.

Lemma white_space_stop_cr :
  Forall (λ w, match w with
               | "" => True
               | String _ q => occurs (ascii_of_N 13) q = false
               end) white_space.
Proof. unfold white_space. repeat constructor. Qed.

Lemma TrimSpace_cr l : TrimSpace (l +:+ cr) = TrimSpace l.
Proof.
  unfold TrimSpace, cr.
  rewrite (trim_go_app_stop _ _ _ 0 white_space_stop_cr) by lia.
  destruct (decide (trim_go white_space 0 l = "")) as [->|_]; [done|].
  rewrite rev_app_str. done.
Qed.

Lemma split_go_cr cur s :
  TrimSpace <$> split_go nl 0 cur (s +:+ cr) = TrimSpace <$> split_go nl 0 cur s.
Proof.
  unfold nl. revert cur. induction s as [|x s IH]; intros cur.
  - change ("" +:+ cr) with cr. simpl. by rewrite TrimSpace_cr.
  - rewrite app_cons_str, !split_go_cons.
    destruct (Ascii.eqb x (ascii_of_N 10)); [|apply IH].
    by rewrite !fmap_cons, IH.
Qed.

Lemma replace_go_app_byte o q new b s :
  occurs b q = false → Ascii.eqb b o = false →
  replace_go (String o q) new 0 (s +:+ String b "") =
  replace_go (String o q) new 0 s +:+ String b "".
Proof.
  intros Hq Ho. rewrite replace_go_app_stop by (done || lia).
  simpl. by rewrite Ho.
Qed.

Lemma normalize_cr s : normalize (s +:+ cr) = normalize s +:+ cr.
Proof.
  unfold normalize, ReplaceAll, cr.
  by rewrite !replace_go_app_byte by done.
Qed.

(** The loop reads of a line only what [TrimSpace] leaves of it. *)
Lemma parse_lines_trimmed st ls ls' :
  TrimSpace <$> ls = TrimSpace <$> ls' → parse_lines st ls = parse_lines st ls'.
Proof.
  revert st ls'. induction ls as [|l ls IH]; intros st [|l' ls'] Heq;
    try done.
  rewrite !fmap_cons in Heq. injection Heq as Hl Hls.
  change (parse_lines st (?x :: ?xs)) with (parse_lines (parse_line st x) xs).
  assert (parse_line st l = parse_line st l') as ->.
  { destruct st as [m cur]. by rewrite !parse_line_classify; unfold classify; rewrite Hl. }
  by apply IH.
Qed.

(** X16: lines may end with a carriage return and a newline as well as
    with a newline alone: the table is the same. *)
Theorem parseDescription_crlf s r :
  parseDescription (s +:+ cr +:+ nl +:+ r) = parseDescription (s +:+ nl +:+ r).
Proof.
  unfold parseDescription.
  rewrite <- (app_assoc_str s cr).
  rewrite !desc_lines_app by (by left).
  rewrite !parse_lines_app. f_equal. f_equal.
  apply parse_lines_trimmed. unfold desc_lines, Split.
  rewrite normalize_cr. apply split_go_cr.
Qed.
